(** * aionotify: the descriptor transport and the watcher, verified

    Part one, [Module Transport], is a shallow embedding of
    [aionotify/aioutils.py]: the class [UnixFileDescriptorTransport] and the
    coroutine [stream_from_fd], together with the part of the asyncio event
    loop they talk to (the FIFO of [call_soon] handles, the reader
    registrations, the exception handler).

    Part two, [Module Watcher], covers the watch registry, the record decoder
    and the watcher state machine.

    The model of the transport takes two things for granted: a callback of
    the protocol returns or raises but does not call back into the transport
    while it runs (a call right after it is an action of its own), and
    [os.close] succeeds on the descriptor the transport owns. *)

From stdpp Require Import gmap strings list.
From Stdlib Require Import ZArith Strings.Byte.
From Stdlib Require DecimalString.

Local Open Scope Z_scope.

Module Transport.

(** ** Exceptions, tasks, events *)

(** [errno.EINTR] and [errno.EIO]. *)
Definition EINTR : Z := 4.
Definition EIO : Z := 5.

(** The Python exceptions that occur.  [OSError n] with [n = EINTR] is the
    subclass [InterruptedError]; [UserError] stands for whatever a protocol
    callback may raise. *)
Inductive exn :=
| OSError (errno : Z)
| AttributeError
| TypeError
| ValueError
| InvalidStateError
| CancelledError
| UserError (tag : nat).

Definition is_InterruptedError (e : exn) : bool :=
  match e with OSError n => n =? EINTR | _ => false end.

Definition is_OSError (e : exn) : bool :=
  match e with OSError _ => true | _ => false end.

Definition errno_is (c : Z) (e : exn) : bool :=
  match e with OSError n => n =? c | _ => false end.

(** [except Exception]: every exception of the model but [CancelledError],
    which derives from [BaseException]. *)
Definition is_Exception (e : exn) : bool :=
  match e with CancelledError => false | _ => true end.

(** The callables handed to [loop.call_soon]. *)
Inductive Task :=
| ConnectionMade                       (* protocol.connection_made, self *)
| ResumeReading                        (* self.resume_reading *)
| NotifyWaiter                         (* self._notify_waiter, waiter *)
| EofReceived                          (* protocol.eof_received *)
| CallConnectionLost (error : option exn) (* self._call_connection_lost, error *)
| Wakeup                               (* done-callback of the awaited waiter *)
| Foreign (n : nat).                   (* a handle of some other component *)

(** What an observer of the run sees, in order. *)
Inductive Event :=
| EvConnectionMade
| EvDataReceived (data : list byte)
| EvEofReceived
| EvConnectionLost (error : option exn)
| EvOsClose (fd : Z)
| EvAddReader (fd : Z)
| EvRemoveReader (fd : Z)
| EvExceptionHandler (message : string) (e : exn)
| EvLog (level : string)
| EvSetResult
| EvReturn
| EvForeign (n : nat).

(** State of an [asyncio.Future]. *)
Inductive Future := Pending | Finished | Cancelled | Failed (e : exn).

(** Where the coroutine [stream_from_fd] stands. [NoCoro]: the transport was
    built directly, nobody awaits the waiter. *)
Inductive Coro := NoCoro | Awaiting | Returned | Raised (e : exn).

(** ** The world: the loop, the transport object, the waiter *)

Record World := mkWorld {
  (* the event loop *)
  ready : list Task;      (* handles submitted with call_soon, oldest first *)
  readers : gset Z;       (* descriptors with a reader callback *)
  debug : bool;           (* loop.get_debug() *)
  (* the attributes of the transport; [false] or [None] is Python's None *)
  _loop : bool;
  _fileno : option Z;
  _protocol : bool;
  _active : bool;
  _closing : bool;
  (* the waiter future and the coroutine awaiting it *)
  waiter : option Future;
  coro : Coro;
  (* the events so far, oldest first *)
  trace : list Event
}.

Definition set_ready (x : list Task) (w : World) : World :=
  mkWorld x (readers w) (debug w) (_loop w) (_fileno w) (_protocol w)
          (_active w) (_closing w) (waiter w) (coro w) (trace w).
Definition set_readers (x : gset Z) (w : World) : World :=
  mkWorld (ready w) x (debug w) (_loop w) (_fileno w) (_protocol w)
          (_active w) (_closing w) (waiter w) (coro w) (trace w).
Definition set_loop (x : bool) (w : World) : World :=
  mkWorld (ready w) (readers w) (debug w) x (_fileno w) (_protocol w)
          (_active w) (_closing w) (waiter w) (coro w) (trace w).
Definition set_fileno (x : option Z) (w : World) : World :=
  mkWorld (ready w) (readers w) (debug w) (_loop w) x (_protocol w)
          (_active w) (_closing w) (waiter w) (coro w) (trace w).
Definition set_protocol (x : bool) (w : World) : World :=
  mkWorld (ready w) (readers w) (debug w) (_loop w) (_fileno w) x
          (_active w) (_closing w) (waiter w) (coro w) (trace w).
Definition set_active (x : bool) (w : World) : World :=
  mkWorld (ready w) (readers w) (debug w) (_loop w) (_fileno w) (_protocol w)
          x (_closing w) (waiter w) (coro w) (trace w).
Definition set_closing (x : bool) (w : World) : World :=
  mkWorld (ready w) (readers w) (debug w) (_loop w) (_fileno w) (_protocol w)
          (_active w) x (waiter w) (coro w) (trace w).
Definition set_waiter (x : option Future) (w : World) : World :=
  mkWorld (ready w) (readers w) (debug w) (_loop w) (_fileno w) (_protocol w)
          (_active w) (_closing w) x (coro w) (trace w).
Definition set_coro (x : Coro) (w : World) : World :=
  mkWorld (ready w) (readers w) (debug w) (_loop w) (_fileno w) (_protocol w)
          (_active w) (_closing w) (waiter w) x (trace w).
Definition set_trace (x : list Event) (w : World) : World :=
  mkWorld (ready w) (readers w) (debug w) (_loop w) (_fileno w) (_protocol w)
          (_active w) (_closing w) (waiter w) (coro w) x.

(** ** A state and exception monad for the method bodies *)

Definition M (A : Type) : Type := World -> (A + exn) * World.

Definition ret {A} (a : A) : M A := fun w => (inl a, w).
Definition raise {A} (e : exn) : M A := fun w => (inr e, w).
Definition bind {A B} (m : M A) (k : A -> M B) : M B :=
  fun w => match m w with
           | (inl a, w') => k a w'
           | (inr e, w') => (inr e, w')
           end.
Definition modify (f : World -> World) : M unit := fun w => (inl tt, f w).
Definition when (b : bool) (m : M unit) : M unit := if b then m else ret tt.

Notation "x <- c ;; k" := (bind c (fun x => k))
  (at level 100, c at next level, right associativity).
Notation "c ;; k" := (bind c (fun _ => k))
  (at level 100, right associativity).

(** [try: body finally: fin]: [fin] runs whatever [body] did; an exception of
    [fin] replaces the one of [body]. *)
Definition try_finally {A} (body : M A) (fin : M unit) : M A :=
  fun w => match body w with
           | (r, w') => match fin w' with
                        | (inl _, w'') => (r, w'')
                        | (inr e, w'') => (inr e, w'')
                        end
           end.

Definition emit (e : Event) : M unit :=
  modify (fun w => set_trace (trace w ++ [e]) w).

(** Evaluating [self._loop.<method>]: AttributeError once [_loop] is None. *)
Definition the_loop : M unit :=
  fun w => if _loop w then (inl tt, w) else (inr AttributeError, w).

(** Evaluating [self._protocol.<method>]. *)
Definition the_protocol : M unit :=
  fun w => if _protocol w then (inl tt, w) else (inr AttributeError, w).

(** ** The event loop's interface *)

(** [loop.call_soon(t)]: the handle goes to the end of the ready queue. *)
Definition enqueue (t : Task) : M unit :=
  modify (fun w => set_ready (ready w ++ [t]) w).

Definition call_soon (t : Task) : M unit := the_loop ;; enqueue t.

(** [loop.remove_reader(fileno)]; a [None] descriptor is refused. *)
Definition remove_reader (fileno : option Z) : M unit :=
  match fileno with
  | None => raise ValueError
  | Some fd => modify (fun w => set_readers (readers w ∖ {[fd]}) w) ;;
               emit (EvRemoveReader fd)
  end.

(** [loop.add_reader(fileno, self._read_ready)]. *)
Definition add_reader (fileno : option Z) : M unit :=
  match fileno with
  | None => raise ValueError
  | Some fd => modify (fun w => set_readers ({[fd]} ∪ readers w) w) ;;
               emit (EvAddReader fd)
  end.

Definition get_debug : M bool := the_loop ;; (fun w => (inl (debug w), w)).

(** A callback of the protocol: it is observed, then returns or raises as the
    environment decides ([o]). *)
Definition callback (ev : Event) (o : option exn) : M unit :=
  emit ev ;; match o with None => ret tt | Some e => raise e end.

(** ** The operating system *)

(** What the kernel has for a read: bytes (none at end of file) or an errno. *)
Inductive ReadOutcome := Avail (data : list byte) | Fails (errno : Z).

(** [os.read(fileno, n)]. *)
Definition os_read (fileno : option Z) (n : nat) (r : ReadOutcome)
  : list byte + exn :=
  match fileno with
  | None => inr TypeError
  | Some _ => match r with
              | Avail data => inl (take n data)
              | Fails errno => inr (OSError errno)
              end
  end.

(** [os.close(self._fileno)], on the descriptor the transport owns. *)
Definition os_close : M unit :=
  fun w => match _fileno w with
           | None => (inr TypeError, w)
           | Some fd => emit (EvOsClose fd) w
           end.

(** ** class UnixFileDescriptorTransport *)

Definition max_size : nat := 1024.
Arguments max_size : simpl never.

(** [__init__(self, loop, fileno, protocol, waiter)], on a loop in state [l]
    (of [l] only the loop's fields and the trace matter). *)
Definition __init__ (fileno : Z) (wt : option Future) (l : World) : World :=
  mkWorld (ready l ++ [ConnectionMade; ResumeReading; NotifyWaiter])
          (readers l) (debug l)
          true (Some fileno) true false false
          wt (coro l) (trace l).

Definition pause_reading : M unit :=
  the_loop ;;
  (fun w => remove_reader (_fileno w) w) ;;
  modify (set_active false).

Definition resume_reading : M unit :=
  the_loop ;;
  (fun w => add_reader (_fileno w) w) ;;
  modify (set_active true).

Definition _close (error : option exn) : M unit :=
  modify (set_closing true) ;;
  pause_reading ;;
  call_soon (CallConnectionLost error).

Definition close : M unit :=
  fun w => if negb (_closing w) then _close None w else ret tt w.

Definition _fatal_error (exc : exn) (message : string) : M unit :=
  (if is_OSError exc && errno_is EIO exc
   then dbg <- get_debug ;; when dbg (emit (EvLog "debug"))
   else the_loop ;; emit (EvExceptionHandler message exc)) ;;
  _close (Some exc).

Definition _call_connection_lost (error : option exn) (o : option exn)
  : M unit :=
  try_finally
    (the_protocol ;; callback (EvConnectionLost error) o)
    (os_close ;;
     modify (set_fileno None) ;;
     modify (set_protocol false) ;;
     modify (set_loop false)).

Definition _read_ready (r : ReadOutcome) (o : option exn) : M unit :=
  fun w =>
    match os_read (_fileno w) max_size r with
    | inr e =>
        if is_InterruptedError e then ret tt w
        else if is_OSError e
             then _fatal_error e "Fatal read error on file descriptor read" w
             else raise e w
    | inl data =>
        match data with
        | _ :: _ => (the_protocol ;; callback (EvDataReceived data) o) w
        | [] =>
            (dbg <- get_debug ;;
             when dbg (emit (EvLog "info")) ;;
             modify (set_closing false) ;;
             pause_reading ;;
             (the_loop ;; the_protocol ;; enqueue EofReceived) ;;
             call_soon (CallConnectionLost None)) w
        end
    end.

(** [waiter.set_result(None)]: the done-callback of whoever awaits the future
    is handed to the future's loop. *)
Definition set_result : M unit :=
  modify (set_waiter (Some Finished)) ;;
  emit EvSetResult ;;
  (fun w => match coro w with
            | Awaiting => enqueue Wakeup w
            | _ => ret tt w
            end).

Definition _notify_waiter : M unit :=
  fun w => match waiter w with
           | None => raise AttributeError w
           | Some Cancelled => ret tt w
           | Some Pending => set_result w
           | Some _ => raise InvalidStateError w
           end.

(** ** async def stream_from_fd *)

(** Up to the first suspension: the waiter is created pending, the transport
    is constructed and the coroutine awaits the waiter. *)
Definition stream_from_fd (fd : Z) (l : World) : World :=
  set_coro Awaiting (__init__ fd (Some Pending) l).

(** After [await waiter]: the rest of the coroutine body, run when the
    waiter's done-callback fires. *)
Definition stream_from_fd_resume : M unit :=
  fun w =>
    match coro w, waiter w with
    | Awaiting, Some Finished =>
        (when (debug w) (emit (EvLog "debug")) ;;
         modify (set_coro Returned) ;; emit EvReturn) w
    | Awaiting, Some (Failed e) =>
        if is_Exception e
        then match close w with
             | (inl _, w') =>
                 (when (debug w') (emit (EvLog "debug")) ;;
                  modify (set_coro Returned) ;; emit EvReturn) w'
             | (inr e', w') => (inl tt, set_coro (Raised e') w')
             end
        else (inl tt, set_coro (Raised e) w)
    | Awaiting, Some Cancelled => (inl tt, set_coro (Raised CancelledError) w)
    | _, _ => (inl tt, w)
    end.

(** ** Running the loop *)

Definition run_task (t : Task) (o : option exn) : M unit :=
  match t with
  | ConnectionMade => callback EvConnectionMade o
  | ResumeReading => resume_reading
  | NotifyWaiter => _notify_waiter
  | EofReceived => callback EvEofReceived o
  | CallConnectionLost error => _call_connection_lost error o
  | Wakeup => stream_from_fd_resume
  | Foreign n => emit (EvForeign n)
  end.

(** [Handle._run]: an exception of the callback goes to the loop's exception
    handler and the loop goes on. *)
Definition run_handle (m : M unit) (w : World) : World :=
  match m w with
  | (inl _, w') => w'
  | (inr e, w') =>
      set_trace (trace w' ++ [EvExceptionHandler "Exception in callback" e]) w'
  end.

(** A call from user code: the exception, if any, is the caller's. *)
Definition user_call (m : M unit) (w : World) : World := snd (m w).

(** [fut.cancel()] on the awaited waiter, when the awaiting task is cancelled. *)
Definition cancel_waiter (w : World) : World :=
  match coro w, waiter w with
  | Awaiting, Some Pending =>
      set_ready (ready w ++ [Wakeup]) (set_waiter (Some Cancelled) w)
  | _, _ => w
  end.

Inductive Action :=
| RunNext (o : option exn)                 (* the oldest ready handle runs *)
| Ready (r : ReadOutcome) (o : option exn) (* the reader callback runs *)
| CallClose
| CallPauseReading
| CallResumeReading
| CancelWaiter.

Definition exec (a : Action) (w : World) : World :=
  match a with
  | RunNext o =>
      match ready w with
      | [] => w
      | t :: q => run_handle (run_task t o) (set_ready q w)
      end
  | Ready r o => run_handle (_read_ready r o) w
  | CallClose => user_call close w
  | CallPauseReading => user_call pause_reading w
  | CallResumeReading => user_call resume_reading w
  | CancelWaiter => cancel_waiter w
  end.

(** The loop only runs the reader callback of a registered descriptor. *)
Definition enabled (fd : Z) (a : Action) (w : World) : bool :=
  match a with
  | Ready _ _ => bool_decide (fd ∈ readers w)
  | _ => true
  end.

Fixpoint run (fd : Z) (acts : list Action) (w : World) : World :=
  match acts with
  | [] => w
  | a :: acts' => run fd acts' (if enabled fd a w then exec a w else w)
  end.

(** The states the world can be in after the transport for [fd] was set up
    from [w0]. *)
Inductive reachable (fd : Z) (w0 : World) : World -> Prop :=
| reach_init : reachable fd w0 w0
| reach_step w a :
    reachable fd w0 w -> enabled fd a w = true -> reachable fd w0 (exec a w).

(** ** Observations on traces and queues *)

Definition is_connection_lost (e : Event) : bool :=
  match e with EvConnectionLost _ => true | _ => false end.

Definition is_os_close (e : Event) : bool :=
  match e with EvOsClose _ => true | _ => false end.

Definition count (p : Event -> bool) (tr : list Event) : nat :=
  length (List.filter p tr).
Arguments count : simpl never.

Definition is_finalization (t : Task) : bool :=
  match t with CallConnectionLost _ => true | _ => false end.

(** A finalization is waiting in the ready queue. *)
Definition pending_finalization (q : list Task) : bool :=
  existsb is_finalization q.
Arguments pending_finalization : simpl never.

Definition is_foreign (t : Task) : bool :=
  match t with Foreign _ => true | _ => false end.

(** What the loop reports when a callback ends as [o]. *)
Definition handler_events (o : option exn) : list Event :=
  match o with
  | None => []
  | Some e => [EvExceptionHandler "Exception in callback" e]
  end.

(** The actions that end the transport: [close()], a zero-byte read, a read
    error other than an interrupted call. *)
Definition ends (a : Action) : bool :=
  match a with
  | CallClose => true
  | Ready (Avail data) _ => match take max_size data with [] => true | _ => false end
  | Ready (Fails errno) _ => negb (errno =? EINTR)
  | _ => false
  end.

(** A loop on which nothing was set up and nothing has happened. *)
Definition fresh_loop (dbg : bool) : World :=
  mkWorld [] ∅ dbg false None false false false None NoCoro [].

(** ** The constructor *)

Lemma count_snoc p tr e :
  count p (tr ++ [e]) = (count p tr + (if p e then 1 else 0))%nat.
Proof.
  unfold count. rewrite List.filter_app, length_app. simpl.
  destruct (p e); reflexivity.
Qed.

Lemma count_app p tr1 tr2 :
  count p (tr1 ++ tr2) = (count p tr1 + count p tr2)%nat.
Proof. unfold count. by rewrite List.filter_app, length_app. Qed.

Lemma pending_cons t q :
  pending_finalization (t :: q) = is_finalization t || pending_finalization q.
Proof. reflexivity. Qed.

Lemma pending_snoc q t :
  pending_finalization (q ++ [t]) = pending_finalization q || is_finalization t.
Proof.
  unfold pending_finalization. rewrite existsb_app. simpl.
  by rewrite orb_false_r.
Qed.

(** C3. The constructor runs none of [connection_made], [resume_reading] and
    the waiter's wake-up: it only appends the three handles, in this order, to
    the loop's ready queue; the trace, the reader registrations and the waiter
    are as before.  The three run on later turns of the loop: on a loop with
    nothing else queued, three turns produce [connection_made], the
    registration of the descriptor and the waiter's result, in this order. *)
Theorem init_only_schedules (fd : Z) (wt : option Future) (l : World) :
  let w := __init__ fd wt l in
  ready w = ready l ++ [ConnectionMade; ResumeReading; NotifyWaiter]
  /\ trace w = trace l
  /\ readers w = readers l
  /\ waiter w = wt
  /\ _active w = false /\ _closing w = false
  /\ forall o1 o2 o3,
       let w3 := run fd [RunNext o1; RunNext o2; RunNext o3]
                     (__init__ fd (Some Pending) (set_ready [] l)) in
       trace w3 = trace l ++ [EvConnectionMade] ++ handler_events o1
                          ++ [EvAddReader fd; EvSetResult]
       /\ readers w3 = {[fd]} ∪ readers l
       /\ waiter w3 = Some Finished
       /\ _active w3 = true.
Proof.
  cbv zeta. split_and!; try reflexivity.
  intros o1 o2 o3. destruct l as [q rs dbg lp fn pr ac cl wt0 co tr].
  destruct o1, co; cbn; rewrite <- ?app_assoc; split_and!; reflexivity.
Qed.

(** ** close() *)

(** A transport that still has its loop, its descriptor and its protocol. *)
Definition attached (fd : Z) (w : World) : Prop :=
  _loop w = true /\ _fileno w = Some fd /\ _protocol w = true.

(** What [_close(error)] leaves of an attached transport's world. *)
Definition closed_with (fd : Z) (error : option exn) (w : World) : World :=
  set_ready (ready w ++ [CallConnectionLost error])
    (set_active false
       (set_trace (trace w ++ [EvRemoveReader fd])
          (set_readers (readers w ∖ {[fd]})
             (set_closing true w)))).

Lemma _close_attached fd error w :
  _loop w = true -> _fileno w = Some fd ->
  _close error w = (inl tt, closed_with fd error w).
Proof.
  intros Hl Hf. destruct w as [q rs dbg lp fn pr ac cl wt0 co tr].
  cbn in Hl, Hf. subst. reflexivity.
Qed.

(** C2. [close()] on a transport that is open (not closing, attached to its
    loop): the call returns normally; the transport is closing and paused,
    the descriptor is no longer registered, and the only other change is one
    finalization handle at the end of the ready queue: no [connection_lost],
    no [os.close] has run, the descriptor is still held.  A [close()] on a
    closing transport, in whatever state, returns the world unchanged; so the
    second of two calls does nothing. *)
Theorem close_idempotent (fd : Z) (w : World) :
  _closing w = false -> _loop w = true -> _fileno w = Some fd ->
  exists w1,
    close w = (inl tt, w1)
    /\ _closing w1 = true /\ _active w1 = false
    /\ readers w1 = readers w ∖ {[fd]} /\ (fd ∉ readers w1)
    /\ ready w1 = ready w ++ [CallConnectionLost None]
    /\ trace w1 = trace w ++ [EvRemoveReader fd]
    /\ _fileno w1 = Some fd /\ _loop w1 = true /\ _protocol w1 = _protocol w
    /\ waiter w1 = waiter w /\ coro w1 = coro w /\ debug w1 = debug w
    /\ close w1 = (inl tt, w1)
    /\ forall w', _closing w' = true -> close w' = (inl tt, w').
Proof.
  intros Hc Hl Hf. exists (closed_with fd None w).
  assert (Hclose : forall w', _closing w' = true -> close w' = (inl tt, w')).
  { intros w' H. unfold close. rewrite H. reflexivity. }
  split_and!; try reflexivity; try assumption.
  - unfold close. rewrite Hc. cbn [negb]. by apply _close_attached.
  - cbn. intros [_ H]%elem_of_difference. apply H. by apply elem_of_singleton.
Qed.

Lemma close_idempotent_witness :
  exists w1,
    close (__init__ 3 None (fresh_loop false)) = (inl tt, w1)
    /\ ready w1 = [ConnectionMade; ResumeReading; NotifyWaiter;
                   CallConnectionLost None]
    /\ close w1 = (inl tt, w1).
Proof.
  destruct (close_idempotent 3 (__init__ 3 None (fresh_loop false)))
    as (w1 & H1 & _ & _ & _ & _ & Hq & _ & _ & _ & _ & _ & _ & _ & H2 & _);
    [reflexivity | reflexivity | reflexivity |].
  exists w1. split_and!; [exact H1 | exact Hq | exact H2].
Defined.

(** ** Read errors *)

(** C4. The reader callback on an attached transport, when [os.read] fails
    with errno [n].  [EINTR]: nothing changes and nothing is raised.  [EIO]:
    the loop's exception handler is not called (at most a debug line is
    logged); the transport is closed with the error.  Any other errno: the
    exception handler is called first, then the transport is closed with the
    error.  Closed with the error: closing, paused, and a finalization handle
    carrying the error is queued; when that handle runs, [connection_lost]
    receives the error and the descriptor is closed. *)
Theorem read_error_handling (fd : Z) (w : World) (n : Z) (o : option exn) :
  _loop w = true -> _fileno w = Some fd -> _protocol w = true ->
  let exc := OSError n in
  let msg := "Fatal read error on file descriptor read"%string in
  let logged := if debug w then [EvLog "debug"] else [] in
  (n = EINTR -> _read_ready (Fails n) o w = (inl tt, w))
  /\ (n = EIO ->
      _read_ready (Fails n) o w
      = (inl tt, closed_with fd (Some exc)
                   (set_trace (trace w ++ logged) w)))
  /\ (n <> EINTR -> n <> EIO ->
      _read_ready (Fails n) o w
      = (inl tt, closed_with fd (Some exc)
                   (set_trace (trace w ++ [EvExceptionHandler msg exc]) w)))
  /\ (forall w' o', attached fd w' ->
        trace (exec (RunNext o')
                 (set_ready [CallConnectionLost (Some exc)] w'))
        = trace w' ++ [EvConnectionLost (Some exc); EvOsClose fd]
                   ++ handler_events o').
Proof.
  intros Hl Hf Hp. cbv zeta.
  destruct w as [q rs dbg lp fn pr ac cl wt0 co tr].
  cbn in Hl, Hf, Hp. subst. split_and!.
  - intros ->. reflexivity.
  - intros ->. destruct dbg; cbn; rewrite ?app_nil_r; reflexivity.
  - intros H1 H2. unfold _read_ready. cbn.
    destruct (Z.eqb_spec n EINTR) as [?|_]; [done|].
    unfold _fatal_error. cbn.
    destruct (Z.eqb_spec n EIO) as [?|_]; [done|]. reflexivity.
  - intros w' o' (Hl & Hf & Hp).
    destruct w' as [q' rs' dbg' lp' fn' pr' ac' cl' wt' co' tr'].
    cbn in Hl, Hf, Hp. subst.
    destruct o'; cbn; rewrite <- ?app_assoc; reflexivity.
Qed.

Lemma read_error_handling_witness :
  _read_ready (Fails 13) None (__init__ 3 None (fresh_loop false))
  = (inl tt,
     closed_with 3 (Some (OSError 13))
       (set_trace [EvExceptionHandler
                     "Fatal read error on file descriptor read" (OSError 13)]
          (__init__ 3 None (fresh_loop false)))).
Proof.
  destruct (read_error_handling 3 (__init__ 3 None (fresh_loop false)) 13 None)
    as (_ & _ & H & _); [reflexivity | reflexivity | reflexivity |].
  apply H; unfold EINTR, EIO; lia.
Defined.

(** ** Finalization happens once *)

(** The life of the transport, with [bl] calls of [connection_lost] and [bc]
    of [os.close] on record when it was constructed: either it is attached
    and nothing more was recorded, and if it is closing a finalization is
    queued; or it was finalized, all three attributes are None, and exactly
    one more of each is on record. *)
Definition life_inv (fd : Z) (bl bc : nat) (w : World) : Prop :=
  (attached fd w
   /\ count is_connection_lost (trace w) = bl
   /\ count is_os_close (trace w) = bc
   /\ (_closing w = true -> pending_finalization (ready w) = true))
  \/ (_loop w = false /\ _fileno w = None /\ _protocol w = false
      /\ count is_connection_lost (trace w) = S bl
      /\ count is_os_close (trace w) = S bc).

(** The transport was ended: finalized already, or about to be. *)
Definition ended (w : World) : Prop :=
  _fileno w = None \/ pending_finalization (ready w) = true.

Ltac break_world w :=
  let q := fresh "q" in let rs := fresh "rs" in let dbg := fresh "dbg" in
  let lp := fresh "lp" in let fn := fresh "fn" in let pr := fresh "pr" in
  let ac := fresh "ac" in let cl := fresh "cl" in let wt := fresh "wt" in
  let co := fresh "co" in let tr := fresh "tr" in
  destruct w as [q rs dbg lp fn pr ac cl wt co tr].

(** Normal form of the counters and of the queue test after a step. *)
Ltac count_simpl :=
  rewrite ?count_snoc, ?pending_snoc, ?pending_cons in *;
  cbn [is_connection_lost is_os_close is_finalization orb andb negb] in *;
  rewrite ?orb_true_r, ?orb_false_r, ?Nat.add_0_r in *.

(** One more case distinction, on what blocks the evaluation of the step. *)
Ltac split_input :=
  match goal with
  | |- context [exec ?a _] => is_var a; destruct a
  | |- context [run_task ?t _] => is_var t; destruct t
  | |- context [_read_ready ?r _] => is_var r; destruct r
  | |- context [take max_size ?d] => destruct (take max_size d)
  | |- context [Z.eqb ?n ?m] => destruct (Z.eqb_spec n m)
  | |- context [match ?x with _ => _ end] =>
      is_var x;
      lazymatch type of x with
      | option exn => destruct x
      | option Z => destruct x
      | option Future => destruct x
      | Future => destruct x
      | Coro => destruct x
      | exn => destruct x
      | bool => destruct x
      | list Task => destruct x
      | Task => destruct x
      | ReadOutcome => destruct x
      | Action => destruct x
      end
  end.

Ltac life_done :=
  solve [ left; split_and!; first [done | lia | intros; auto]
        | right; split_and!; first [done | lia] ].

(** Unfolding of one step of the model, down to its case distinctions. *)
Ltac step_unfold :=
  cbv beta iota zeta delta
    [exec run_handle user_call cancel_waiter run_task callback
     stream_from_fd_resume _notify_waiter set_result _read_ready
     _call_connection_lost _fatal_error close _close resume_reading
     pause_reading os_close os_read get_debug add_reader remove_reader
     call_soon enqueue the_protocol the_loop emit try_finally when modify
     bind raise ret is_InterruptedError is_OSError errno_is is_Exception
     set_ready set_readers set_loop set_fileno set_protocol set_active
     set_closing set_waiter set_coro set_trace
     ready readers debug _loop _fileno _protocol _active _closing waiter coro
     trace ends enabled andb negb snd fst].

Ltac step_cases := step_unfold; repeat (split_input; step_unfold).

Ltac life_step := step_cases; count_simpl; life_done.

Lemma life_inv_init fd wt l :
  life_inv fd (count is_connection_lost (trace l))
              (count is_os_close (trace l)) (__init__ fd wt l).
Proof. left. unfold attached. cbn. split_and!; done. Qed.

Lemma life_inv_exec fd bl bc a w :
  life_inv fd bl bc w -> life_inv fd bl bc (exec a w).
Proof.
  break_world w. unfold life_inv, attached. cbn.
  intros [(([= ->] & [= ->] & [= ->]) & Hl & Hc & Hp)
         |([= ->] & [= ->] & [= ->] & Hl & Hc)].
  all: life_step.
Qed.


Lemma life_inv_run fd bl bc acts w :
  life_inv fd bl bc w -> life_inv fd bl bc (run fd acts w).
Proof.
  revert w. induction acts as [|a acts IH]; intros w H; [exact H|].
  cbn [run]. apply IH. destruct (enabled fd a w); [|exact H].
  by apply life_inv_exec.
Qed.

Ltac ended_done :=
  solve [ done
        | left; reflexivity
        | right; repeat match goal with
                 | H : pending_finalization _ = true |- _ => rewrite H
                 | H : true = true -> _ |- _ => specialize (H eq_refl)
                 end; reflexivity ].

(** Once ended, ended for good: a queued finalization stays queued until it
    runs, and when it runs on an attached transport it finalizes it. *)
Lemma ended_exec fd bl bc a w :
  life_inv fd bl bc w -> ended w -> ended (exec a w).
Proof.
  break_world w. unfold life_inv, attached, ended. cbn.
  intros [(([= ->] & [= ->] & [= ->]) & Hl & Hc & Hp)
         |([= ->] & [= ->] & [= ->] & Hl & Hc)] [He|He]; try done.
  all: clear Hl Hc; revert He; step_cases; count_simpl; intros; ended_done.
Qed.

Lemma ended_run fd bl bc acts w :
  life_inv fd bl bc w -> ended w -> ended (run fd acts w).
Proof.
  revert w. induction acts as [|a acts IH]; intros w H He; [exact He|].
  cbn [run]. destruct (enabled fd a w) eqn:E.
  - apply IH; [by apply life_inv_exec | by eapply ended_exec].
  - by apply IH.
Qed.

(** Each of the three ways to end the transport leaves it ended. *)
Lemma ends_ended fd bl bc a w :
  life_inv fd bl bc w -> ends a = true -> ended (exec a w).
Proof.
  break_world w. unfold life_inv, attached, ended. cbn.
  intros [(([= ->] & [= ->] & [= ->]) & Hl & Hc & Hp)
         |([= ->] & [= ->] & [= ->] & Hl & Hc)].
  all: clear Hl Hc; step_cases; count_simpl; intros; ended_done.
Qed.


(** C1. Whatever happened since the transport was constructed ([acts1]), once
    it is ended by [close()], by a zero-byte read or by a fatal read error
    ([a]), and whatever happens afterwards ([acts2]): [connection_lost] is
    called at most once and the descriptor is closed at most once; and as soon
    as no finalization is left in the ready queue, [connection_lost] was
    called exactly once, the descriptor was closed exactly once and the
    transport holds it no more.  The finalization itself, on an attached
    transport, calls [connection_lost] and then closes the descriptor and
    drops the attributes, also when [connection_lost] raises ([o = Some e]);
    the exception is then passed on. *)
Theorem finalization_exactly_once
    (fd : Z) (wt : option Future) (l : World)
    (acts1 : list Action) (a : Action) (acts2 : list Action) :
  ends a = true ->
  let bl := count is_connection_lost (trace l) in
  let bc := count is_os_close (trace l) in
  let w := run fd acts2 (exec a (run fd acts1 (__init__ fd wt l))) in
  (count is_connection_lost (trace w) <= bl + 1)%nat
  /\ (count is_os_close (trace w) <= bc + 1)%nat
  /\ (pending_finalization (ready w) = false ->
      count is_connection_lost (trace w) = (bl + 1)%nat
      /\ count is_os_close (trace w) = (bc + 1)%nat
      /\ _fileno w = None)
  /\ (forall w' error o, attached fd w' ->
      exists w'',
        _call_connection_lost error o w'
        = (match o with None => inl tt | Some e => inr e end, w'')
        /\ trace w'' = trace w' ++ [EvConnectionLost error; EvOsClose fd]
        /\ _fileno w'' = None /\ _protocol w'' = false /\ _loop w'' = false).
Proof.
  intros Hends. cbv zeta.
  set (w1 := run fd acts1 (__init__ fd wt l)).
  assert (H1 : life_inv fd (count is_connection_lost (trace l))
                 (count is_os_close (trace l)) w1)
    by apply life_inv_run, life_inv_init.
  assert (H2 := life_inv_exec fd _ _ a w1 H1).
  assert (E2 := ends_ended fd _ _ a w1 H1 Hends).
  assert (H3 := life_inv_run fd _ _ acts2 _ H2).
  assert (E3 := ended_run fd _ _ acts2 _ H2 E2).
  set (w := run fd acts2 (exec a w1)) in *.
  split_and!.
  - destruct H3 as [(_ & -> & _)|(_ & _ & _ & -> & _)]; lia.
  - destruct H3 as [(_ & _ & -> & _)|(_ & _ & _ & _ & ->)]; lia.
  - intros Hq.
    destruct H3 as [((_ & Hf & _) & _)|(_ & Hf & _ & -> & ->)].
    + destruct E3 as [E3|E3]; congruence.
    + split_and!; [lia | lia | exact Hf].
  - intros w' error o (Hl & Hf & Hp). break_world w'. cbn in Hl, Hf, Hp.
    subst. eexists. destruct o; cbn; rewrite <- ?app_assoc;
      split_and!; reflexivity.
Qed.

Lemma finalization_exactly_once_witness :
  let w := run 3 [RunNext None; RunNext None; RunNext None;
                  RunNext (Some (UserError 1))]
             (exec CallClose
                (run 3 [] (__init__ 3 None (fresh_loop false)))) in
  count is_connection_lost (trace w) = 1%nat
  /\ count is_os_close (trace w) = 1%nat
  /\ _fileno w = None.
Proof.
  apply (finalization_exactly_once 3 None (fresh_loop false) [] CallClose
           [RunNext None; RunNext None; RunNext None;
            RunNext (Some (UserError 1))]); reflexivity.
Defined.


(** ** The active flag and the reader registration *)

Definition active_inv (fd : Z) (w : World) : Prop :=
  _active w = true <-> fd ∈ readers w.

Lemma not_elem_of_remove (fd : Z) (rs : gset Z) : fd ∉ rs ∖ {[fd]}.
Proof. intros [_ H]%elem_of_difference. apply H. by apply elem_of_singleton. Qed.

Lemma elem_of_add (fd : Z) (rs : gset Z) : fd ∈ ({[fd]} ∪ rs : gset Z).
Proof. apply elem_of_union. left. by apply elem_of_singleton. Qed.

Ltac active_done :=
  solve [ assumption
        | split; [done | intros H; exfalso; revert H; apply not_elem_of_remove]
        | split; [intros _; apply elem_of_add | done] ].

Lemma active_inv_exec fd bl bc a w :
  life_inv fd bl bc w -> active_inv fd w -> active_inv fd (exec a w).
Proof.
  break_world w. unfold life_inv, attached, active_inv. cbn.
  intros [(([= ->] & [= ->] & [= ->]) & Hl & Hc & Hp)
         |([= ->] & [= ->] & [= ->] & Hl & Hc)] Ha.
  all: clear Hl Hc; step_cases; active_done.
Qed.

Lemma active_inv_reachable fd wt l w :
  fd ∉ readers l ->
  reachable fd (__init__ fd wt l) w ->
  life_inv fd (count is_connection_lost (trace l))
    (count is_os_close (trace l)) w
  /\ active_inv fd w.
Proof.
  intros Hfd. induction 1 as [|w a _ [IH1 IH2] _].
  - split; [apply life_inv_init|]. unfold active_inv. cbn. split; done.
  - split; [by apply life_inv_exec | by eapply active_inv_exec].
Qed.

(** C10. On a loop that had no reader for [fd] when the transport was
    constructed, in every state reached from the constructor by loop turns,
    reader callbacks and calls of [pause_reading], [resume_reading] and
    [close], [_active] is true exactly when [fd] has a reader registered.
    And from any state of a transport that still has its loop and its
    descriptor, whatever [_active] and the registrations were,
    [pause_reading] leaves [_active] false and [fd] unregistered, and
    [resume_reading] leaves [_active] true and [fd] registered. *)
Theorem active_iff_registered (fd : Z) (wt : option Future) (l : World) :
  fd ∉ readers l ->
  (forall w, reachable fd (__init__ fd wt l) w ->
             (_active w = true <-> fd ∈ readers w))
  /\ (forall w, _loop w = true -> _fileno w = Some fd ->
        fst (pause_reading w) = inl tt
        /\ _active (snd (pause_reading w)) = false
        /\ (fd ∉ readers (snd (pause_reading w)))
        /\ fst (resume_reading w) = inl tt
        /\ _active (snd (resume_reading w)) = true
        /\ fd ∈ readers (snd (resume_reading w))).
Proof.
  intros Hfd. split.
  - intros w Hw. by apply (active_inv_reachable fd wt l w Hfd Hw).
  - intros w Hl Hf. break_world w. cbn in Hl, Hf. subst.
    split_and!; try reflexivity; cbn;
      [apply not_elem_of_remove | apply elem_of_add].
Qed.

Lemma active_iff_registered_witness :
  let w := exec (Ready (Avail []) None)
             (exec (RunNext None)
                (exec (RunNext None) (__init__ 3 None (fresh_loop false)))) in
  _active w = true <-> 3 ∈ readers w.
Proof.
  refine (proj1 (active_iff_registered 3 None (fresh_loop false) _) _ _).
  - cbn. apply not_elem_of_empty.
  - repeat (apply reach_step; [|vm_compute; reflexivity]). apply reach_init.
Defined.


(** ** stream_from_fd returns after the connection is made *)

Section Boot.

Variable fd : Z.
(** The trace of the loop when [stream_from_fd] was called. *)
Variable tl : list Event.

(** What precedes the return of [stream_from_fd], in this order. *)
Definition boot_events : list Event :=
  [EvConnectionMade; EvAddReader fd; EvSetResult].

(** Since the call, the events [P] occurred, in this order. *)
Definition since (P : list Event) (tr : list Event) : Prop :=
  exists s, tr = tl ++ s /\ sublist P s.

(** Since the call, wherever the coroutine returns, [boot_events] came
    before. *)
Definition returns_after_boot (tr : list Event) : Prop :=
  exists s, tr = tl ++ s
    /\ forall s1 s2, s = s1 ++ EvReturn :: s2 -> sublist boot_events s1.

Definition returned_in (tr : list Event) : Prop :=
  exists s, tr = tl ++ s /\ EvReturn ∈ s.

Lemma since_nil : since [] tl.
Proof. exists []. split; [by rewrite app_nil_r | constructor]. Qed.

Lemma since_keep P tr e : since P tr -> since P (tr ++ [e]).
Proof.
  intros (s & -> & H). exists (s ++ [e]).
  split; [by rewrite app_assoc | by apply sublist_inserts_r].
Qed.

Lemma since_grow P tr e : since P tr -> since (P ++ [e]) (tr ++ [e]).
Proof.
  intros (s & -> & H). exists (s ++ [e]).
  split; [by rewrite app_assoc | by apply sublist_app].
Qed.

Lemma since_weaken P e tr : since (P ++ [e]) tr -> since P tr.
Proof.
  intros (s & -> & H). exists s. split; [done|].
  etrans; [|exact H]. apply sublist_inserts_r. reflexivity.
Qed.

Lemma returns_after_boot_nil : returns_after_boot tl.
Proof.
  exists []. split; [by rewrite app_nil_r|].
  intros s1 s2 H. by destruct s1.
Qed.

Lemma snoc_split (s : list Event) e s1 x s2 :
  s ++ [e] = s1 ++ x :: s2 ->
  (s2 = [] /\ s = s1 /\ e = x) \/ (exists s2', s2 = s2' ++ [e] /\ s = s1 ++ x :: s2').
Proof.
  destruct (decide (s2 = [])) as [->|Hne].
  - intros H. apply app_inj_tail in H as [-> ->]. by left.
  - destruct (exists_last Hne) as (s2' & e' & ->). intros H.
    rewrite app_comm_cons, app_assoc in H.
    apply app_inj_tail in H as [-> ->]. right. by exists s2'.
Qed.

Lemma returns_after_boot_keep tr e :
  e <> EvReturn -> returns_after_boot tr -> returns_after_boot (tr ++ [e]).
Proof.
  intros He (s & -> & H). exists (s ++ [e]). split; [by rewrite app_assoc|].
  intros s1 s2 [(_ & _ & ?)|(s2' & -> & ->)]%snoc_split; [done|].
  by eapply H.
Qed.

Lemma returns_after_boot_return tr :
  since boot_events tr -> returns_after_boot tr ->
  returns_after_boot (tr ++ [EvReturn]).
Proof.
  intros (s' & -> & Hs') (s & Hs & H). apply app_inv_head in Hs as <-.
  exists (s' ++ [EvReturn]). split; [by rewrite app_assoc|].
  intros s1 s2 [(_ & -> & _)|(s2' & -> & ->)]%snoc_split; [done|].
  by eapply H.
Qed.

Lemma returned_in_keep tr e : returned_in tr -> returned_in (tr ++ [e]).
Proof.
  intros (s & -> & H). exists (s ++ [e]).
  split; [by rewrite app_assoc | apply elem_of_app; by left].
Qed.

Lemma returned_in_return P tr : since P tr -> returned_in (tr ++ [EvReturn]).
Proof.
  intros (s & -> & _). exists (s ++ [EvReturn]).
  split; [by rewrite app_assoc | apply elem_of_app; right; by left].
Qed.

Definition waiter_ok (w : World) : Prop :=
  waiter w = Some Pending \/ waiter w = Some Finished
  \/ waiter w = Some Cancelled.

(** Facts that hold all along. *)
Definition boot_common (w : World) : Prop :=
  returns_after_boot (trace w)
  /\ waiter_ok w
  /\ (waiter w = Some Finished -> since boot_events (trace w))
  /\ (coro w = Returned -> returned_in (trace w)).

Definition boot_phase (w : World) : Prop :=
  (exists pre rest,
      ready w = pre ++ ConnectionMade :: ResumeReading :: NotifyWaiter :: rest
      /\ forallb is_foreign pre = true
      /\ attached fd w /\ waiter w <> Some Finished /\ since [] (trace w))
  \/ (exists rest,
      ready w = ResumeReading :: NotifyWaiter :: rest
      /\ attached fd w /\ waiter w <> Some Finished
      /\ since [EvConnectionMade] (trace w))
  \/ since [EvConnectionMade; EvAddReader fd] (trace w).

Definition boot_inv (w : World) : Prop := boot_common w /\ boot_phase w.


Lemma since_grow1 tr a : since [] tr -> since [a] (tr ++ [a]).
Proof. apply (since_grow []). Qed.
Lemma since_grow2 tr a b : since [a] tr -> since [a; b] (tr ++ [b]).
Proof. apply (since_grow [a]). Qed.
Lemma since_grow3 tr a b c :
  since [a; b] tr -> since [a; b; c] (tr ++ [c]).
Proof. apply (since_grow [a; b]). Qed.
Lemma since_boot_grow tr :
  since [EvConnectionMade; EvAddReader fd] tr ->
  since boot_events (tr ++ [EvSetResult]).
Proof. apply since_grow3. Qed.

Lemma foreign_tail t pre :
  forallb is_foreign (t :: pre) = true -> forallb is_foreign pre = true.
Proof. cbn. by intros [_ ?]%andb_true_iff. Qed.


Ltac since_tac :=
  solve [ eassumption
        | match goal with H : ?x = ?x -> _ |- _ => apply H; reflexivity end
        | apply since_grow3; since_tac
        | apply since_grow2; since_tac
        | apply since_grow1; since_tac
        | apply since_keep; since_tac ].

Ltac rab_tac :=
  solve [ assumption
        | apply returns_after_boot_keep; [discriminate | rab_tac]
        | apply returns_after_boot_return; [since_tac | rab_tac] ].

Ltac ri_tac :=
  solve [ match goal with H : _ -> returned_in ?tr |- returned_in ?tr =>
            apply H; assumption || reflexivity end
        | eapply returned_in_return; since_tac
        | apply returned_in_keep; ri_tac ].

Ltac boot_fact :=
  lazymatch goal with
  | |- since _ _ => since_tac
  | |- returns_after_boot _ => rab_tac
  | |- returned_in _ => ri_tac
  | |- _ -> since _ _ => intros ?; first [discriminate | since_tac]
  | |- _ -> returned_in _ => intros ?; first [discriminate | ri_tac]
  | |- _ \/ _ => solve [auto]
  | |- _ <> _ => discriminate
  | |- forallb _ _ = true => first [assumption | eapply foreign_tail; eassumption]
  | |- _ = _ => reflexivity
  end.

Ltac boot_done :=
  cbn [app]; rewrite <- ?(@app_assoc Task); cbn [app];
  split;
  [ split_and!; boot_fact
  | first
      [ solve [right; right; boot_fact]
      | solve [right; left; eexists; split_and!; boot_fact]
      | solve [left; exists []; eexists; split_and!; boot_fact]
      | solve [left; eexists _, _; split_and!; boot_fact]
      | solve [left; eexists (_ :: _), _; cbn [app]; split_and!; boot_fact] ] ].

Lemma boot_inv_exec bl bc a w :
  life_inv fd bl bc w -> boot_inv w -> boot_inv (exec a w).
Proof.
  break_world w.
  unfold life_inv, boot_inv, boot_common, boot_phase, waiter_ok, attached,
    boot_events.
  cbn. intros Hlife ((HQ & Hw & HF & HR) & Hph).
  destruct Hph as [(pre & rest & -> & Hpre & ([= ->] & [= ->] & [= ->]) & Hnf & Hs)
                  |[(rest & -> & ([= ->] & [= ->] & [= ->]) & Hnf & Hs)|Hs]].
  - clear Hlife. destruct Hw as [-> | [-> | ->]]; try done.
    all: destruct pre as [|[] pre]; try done; cbn [app].
    all: step_cases; boot_done.
  - clear Hlife. destruct Hw as [-> | [-> | ->]]; try done.
    all: step_cases; boot_done.
  - destruct Hlife as [(([= ->] & [= ->] & [= ->]) & _)
                      |([= ->] & [= ->] & [= ->] & _)].
    all: destruct Hw as [-> | [-> | ->]].
    all: step_cases; boot_done.
Qed.

(** The loop runs its handles in the order of their submission: a turn takes
    the oldest one, and what it submits goes to the end. *)
Lemma run_next_fifo w t q o :
  ready w = t :: q -> exists new, ready (exec (RunNext o) w) = q ++ new.
Proof.
  break_world w. cbn. intros ->. step_cases.
  all: first [ by exists []; rewrite app_nil_r | by eexists [_] ].
Qed.

End Boot.

Lemma boot_inv_init fd l :
  forallb is_foreign (ready l) = true ->
  boot_inv fd (trace l) (stream_from_fd fd l).
Proof.
  intros Hpre. break_world l. cbn in Hpre. split.
  - unfold boot_common, waiter_ok. cbn. split_and!.
    + apply returns_after_boot_nil.
    + by left.
    + done.
    + done.
  - left. exists q, []. unfold attached. cbn.
    split_and!; try done. apply since_nil.
Qed.

(** C9. [stream_from_fd], called on a loop whose ready queue holds handles of
    other components only, submits [connection_made], [resume_reading] and
    the waiter's wake-up in this order behind them, and awaits the waiter.
    The loop takes the oldest handle at each turn and appends what the turn
    submits.  So in every state reached afterwards (loop turns, reader
    callbacks, calls of the transport's public methods, cancellation of the
    awaiting task, callbacks that raise), among the events since the call:
    if the coroutine has returned its return is on record, and before any
    return of the coroutine come [connection_made], the registration of the
    descriptor by [resume_reading] and the waiter's [set_result], in this
    order. *)
Theorem stream_from_fd_returns_after_boot (fd : Z) (l w : World) :
  forallb is_foreign (ready l) = true ->
  reachable fd (stream_from_fd fd l) w ->
  ready (stream_from_fd fd l)
  = ready l ++ [ConnectionMade; ResumeReading; NotifyWaiter]
  /\ coro (stream_from_fd fd l) = Awaiting
  /\ (forall w' t q o, ready w' = t :: q ->
        exists new, ready (exec (RunNext o) w') = q ++ new)
  /\ exists s,
      trace w = trace l ++ s
      /\ (coro w = Returned -> EvReturn ∈ s)
      /\ forall s1 s2, s = s1 ++ EvReturn :: s2 ->
           sublist [EvConnectionMade; EvAddReader fd; EvSetResult] s1.
Proof.
  intros Hpre Hreach. split_and!; [done | done | apply run_next_fifo |].
  assert (H : life_inv fd (count is_connection_lost (trace l))
                (count is_os_close (trace l)) w
              /\ boot_inv fd (trace l) w).
  { induction Hreach as [|w a _ [IH1 IH2] _].
    - split; [apply (life_inv_init fd (Some Pending) l)|].
      by apply boot_inv_init.
    - split; [by apply life_inv_exec | by eapply boot_inv_exec]. }
  destruct H as [_ [((s & Hs & HQ) & _ & _ & HR) _]].
  exists s. split_and!; [exact Hs | | exact HQ].
  intros Hc. destruct (HR Hc) as (s' & Hs' & Hin).
  rewrite Hs in Hs'. by apply app_inv_head in Hs' as ->.
Qed.

Lemma stream_from_fd_returns_after_boot_witness :
  let w := exec (RunNext None) (exec (RunNext None) (exec (RunNext None)
             (exec (RunNext None) (stream_from_fd 3 (fresh_loop false))))) in
  exists s,
    trace w = [] ++ s
    /\ (coro w = Returned -> EvReturn ∈ s)
    /\ forall s1 s2, s = s1 ++ EvReturn :: s2 ->
         sublist [EvConnectionMade; EvAddReader 3; EvSetResult] s1.
Proof.
  refine (proj2 (proj2 (proj2
    (stream_from_fd_returns_after_boot 3 (fresh_loop false) _ eq_refl _)))).
  repeat (apply reach_step; [|reflexivity]). apply reach_init.
Defined.

(** ** Two runs worth seeing *)

(** The transport after its three initial handles have run. *)
Definition booted : World :=
  run 3 [RunNext None; RunNext None; RunNext None]
    (__init__ 3 (Some Pending) (fresh_loop false)).

(** A zero-byte read resets [_closing] to False, so a [close()] that follows
    queues a second finalization.  The first one finalizes; the second one
    finds [_protocol] and [_fileno] None, calls nothing, closes nothing, and
    its TypeError goes to the loop's exception handler. *)
Example eof_then_close :
  trace (run 3 [Ready (Avail []) None; CallClose;
                RunNext None; RunNext None; RunNext None] booted)
  = [EvConnectionMade; EvAddReader 3; EvSetResult;
     EvRemoveReader 3; EvRemoveReader 3;
     EvEofReceived; EvConnectionLost None; EvOsClose 3;
     EvExceptionHandler "Exception in callback" TypeError].
Proof. vm_compute. reflexivity. Qed.

(** Once the finalization after a zero-byte read has run, [_closing] is False
    and [_loop] is None: [close()] sets [_closing] and then raises
    AttributeError in [pause_reading]. *)
Example close_after_eof_finalization :
  let w := run 3 [Ready (Avail []) None; RunNext None; RunNext None] booted in
  _closing w = false /\ _loop w = false
  /\ fst (close w) = inr AttributeError
  /\ _closing (snd (close w)) = true.
Proof. vm_compute. repeat split; reflexivity. Qed.

(** * Further properties of the transport *)

(** ** The rest of the class: __repr__ *)

(** [str(n)] for an int. *)
Definition str_int (n : Z) : string :=
  DecimalString.NilZero.string_of_int (Z.to_int n).

(** The status computed by [__repr__]; [elif self._fileno] takes None and the
    descriptor 0 as false. *)
Definition status (w : World) : string :=
  if _active w then "active"
  else if _closing w then "closing"
  else match _fileno w with
       | Some n => if n =? 0 then "closed" else "paused"
       | None => "closed"
       end.

Definition __repr__ (w : World) : string :=
  "<" ++ "UnixFileDescriptorTransport" ++ " " ++ status w ++ " "
  ++ ("fd=" ++ match _fileno w with
               | Some n => str_int n
               | None => "None"
               end)
  ++ ">".


(** ** What a finalized transport does *)

(** A transport whose attributes were dropped by the finalization. *)
Definition finalized (w : World) : Prop :=
  _loop w = false /\ _fileno w = None /\ _protocol w = false.

(** X1. On a transport that was finalized ([_loop], [_fileno] and
    [_protocol] are None), every method fails without changing anything:
    [pause_reading] and [resume_reading] raise AttributeError, the reader
    callback raises TypeError before any callback of the protocol, a second
    finalization calls neither [connection_lost] nor [os.close] with a
    descriptor and raises TypeError.  [close()] does nothing if [_closing] is
    set; otherwise it sets [_closing] and raises AttributeError. *)
Theorem finalized_is_inert (w : World) (r : ReadOutcome) (o : option exn)
    (error : option exn) :
  finalized w ->
  pause_reading w = (inr AttributeError, w)
  /\ resume_reading w = (inr AttributeError, w)
  /\ _read_ready r o w = (inr TypeError, w)
  /\ _call_connection_lost error o w = (inr TypeError, w)
  /\ close w = if _closing w then (inl tt, w)
               else (inr AttributeError, set_closing true w).
Proof.
  intros (Hl & Hf & Hp). break_world w. cbn in Hl, Hf, Hp. subst.
  split_and!; try reflexivity. by destruct cl.
Qed.

Lemma finalized_is_inert_witness :
  let w := run 3 [CallClose; RunNext None] (set_ready [] booted) in
  pause_reading w = (inr AttributeError, w).
Proof.
  cbv zeta.
  refine (proj1 (finalized_is_inert _ (Avail []) None None _)).
  vm_compute. repeat split; reflexivity.
Defined.

Definition is_data (e : Event) : bool :=
  match e with EvDataReceived _ => true | _ => false end.

Ltac split_bytes :=
  match goal with
  | |- context [match ?x with _ => _ end] =>
      is_var x;
      lazymatch type of x with
      | list byte => destruct x
      end
  end.

Ltac more_cases :=
  step_unfold; repeat (first [split_input | split_bytes]; step_unfold).

Lemma finalized_exec a w :
  finalized w ->
  finalized (exec a w)
  /\ count is_connection_lost (trace (exec a w))
     = count is_connection_lost (trace w)
  /\ count is_os_close (trace (exec a w)) = count is_os_close (trace w)
  /\ count is_data (trace (exec a w)) = count is_data (trace w).
Proof.
  intros (Hl & Hf & Hp). break_world w. cbn in Hl, Hf, Hp. subst.
  unfold finalized. step_cases.
  all: rewrite ?count_snoc; cbn [is_connection_lost is_os_close is_data];
    rewrite ?Nat.add_0_r; split_and!; reflexivity.
Qed.

(** X2. Once finalized, a transport stays finalized whatever follows (loop
    turns, reader callbacks, calls of the public methods, cancellation), and
    from then on the protocol gets no [connection_lost] and no
    [data_received], and no descriptor is closed. *)
Theorem finalized_forever (fd : Z) (acts : list Action) (w : World) :
  finalized w ->
  let w' := run fd acts w in
  finalized w'
  /\ count is_connection_lost (trace w') = count is_connection_lost (trace w)
  /\ count is_os_close (trace w') = count is_os_close (trace w)
  /\ count is_data (trace w') = count is_data (trace w).
Proof.
  cbv zeta. revert w. induction acts as [|a acts IH]; intros w H; [done|].
  cbn [run]. destruct (enabled fd a w); [|by apply IH].
  destruct (finalized_exec a w H) as (H' & E1 & E2 & E3).
  destruct (IH _ H') as (? & ? & ? & ?). split_and!; congruence.
Qed.

Lemma finalized_forever_witness :
  let w := run 3 [CallClose; RunNext None] (set_ready [] booted) in
  finalized (run 3 [CallResumeReading; Ready (Avail []) None; CallClose] w).
Proof.
  cbv zeta. refine (proj1 (finalized_forever 3 _ _ _)).
  vm_compute. repeat split; reflexivity.
Defined.

(** ** What the protocol is handed *)

(** A chunk as [data_received] may get it: not empty, at most [max_size]
    bytes. *)
Definition chunk_ok (e : Event) : bool :=
  match e with
  | EvDataReceived d =>
      match d with [] => false | _ :: _ => Nat.leb (length d) max_size end
  | _ => true
  end.

Ltac chunks_done :=
  rewrite <- ?(@app_assoc Event);
  first [ exists []; split; [by rewrite app_nil_r | reflexivity]
        | eexists; split; [reflexivity|];
          cbn [forallb chunk_ok andb app];
          first [ reflexivity
                | rewrite ?andb_true_r; apply Nat.leb_le; assumption ] ].

Lemma exec_chunks a w :
  exists s, trace (exec a w) = trace w ++ s /\ forallb chunk_ok s = true.
Proof.
  break_world w. destruct a as [o|r o| | | |].
  2: { destruct r as [data|errno].
       - assert (Hlen : (length (take max_size data) <= max_size)%nat)
           by (rewrite length_take; lia).
         step_unfold. revert Hlen.
         generalize (take max_size data). intros d Hlen.
         more_cases; chunks_done.
       - more_cases; chunks_done. }
  all: more_cases; chunks_done.
Qed.

(** X3. In every run, from any state, the trace only grows, and every chunk
    handed to [data_received] is non-empty and has at most [max_size] (1024)
    bytes. *)
Theorem data_chunks_bounded (fd : Z) (acts : list Action) (w : World) :
  exists s,
    trace (run fd acts w) = trace w ++ s /\ forallb chunk_ok s = true.
Proof.
  revert w. induction acts as [|a acts IH]; intros w.
  - exists []. split; [by rewrite app_nil_r | reflexivity].
  - cbn [run]. destruct (enabled fd a w); [|apply IH].
    destruct (exec_chunks a w) as (s1 & E1 & F1).
    destruct (IH (exec a w)) as (s2 & E2 & F2).
    exists (s1 ++ s2). split.
    + by rewrite E2, E1, app_assoc.
    + by rewrite forallb_app, F1, F2.
Qed.

(** X4. The reader callback on an attached transport, when [os.read] has
    bytes: [data_received] gets the first [max_size] of them, once; nothing
    else changes (no handle queued, no registration touched, [_closing] and
    [_active] as before); an exception of [data_received] is not caught: it
    leaves the callback as it is, and the transport stays open. *)
Theorem data_received_keeps_open (fd : Z) (data : list byte)
    (o : option exn) (w : World) :
  attached fd w ->
  take max_size data <> [] ->
  _read_ready (Avail data) o w
  = (match o with None => inl tt | Some e => inr e end,
     set_trace (trace w ++ [EvDataReceived (take max_size data)]) w).
Proof.
  intros (Hl & Hf & Hp) Hd. break_world w. cbn in Hl, Hf, Hp. subst.
  step_unfold. destruct (take max_size data); [done|]. by destruct o.
Qed.

Lemma data_received_keeps_open_witness :
  _read_ready (Avail ["a"%byte; "b"%byte]) (Some (UserError 0)) booted
  = (inr (UserError 0),
     set_trace (trace booted
                ++ [EvDataReceived (take max_size ["a"%byte; "b"%byte])])
       booted).
Proof.
  apply (data_received_keeps_open 3).
  - vm_compute. repeat split; reflexivity.
  - vm_compute. discriminate.
Defined.

(** ** Pausing and resuming *)

Lemma readd_removed (fd : Z) (rs : gset Z) :
  fd ∈ rs -> {[fd]} ∪ rs ∖ {[fd]} = rs.
Proof.
  intros H. apply set_eq. intros x.
  rewrite elem_of_union, elem_of_difference, elem_of_singleton. split.
  - by intros [->|[Hx _]].
  - intros Hx. destruct (decide (x = fd)); [by left | by right].
Qed.

Lemma remove_added (fd : Z) (rs : gset Z) :
  fd ∉ rs -> ({[fd]} ∪ rs) ∖ {[fd]} = rs.
Proof.
  intros H. apply set_eq. intros x.
  rewrite elem_of_difference, elem_of_union, elem_of_singleton. split.
  - by intros [[Hx|Hx] Hne].
  - intros Hx. split; [by right | by intros ->].
Qed.

(** X5. On a transport that has its loop and its descriptor:
    [pause_reading] then [resume_reading] on an active, registered transport,
    and [resume_reading] then [pause_reading] on a paused, unregistered one,
    give back the state they started from; only the two calls to the loop
    are on record. *)
Theorem pause_resume_round_trip (fd : Z) (w : World) :
  _loop w = true -> _fileno w = Some fd ->
  (_active w = true -> fd ∈ readers w ->
   snd (resume_reading (snd (pause_reading w)))
   = set_trace (trace w ++ [EvRemoveReader fd; EvAddReader fd]) w)
  /\ (_active w = false -> (fd ∉ readers w) ->
      snd (pause_reading (snd (resume_reading w)))
      = set_trace (trace w ++ [EvAddReader fd; EvRemoveReader fd]) w).
Proof.
  intros Hl Hf. break_world w. cbn in Hl, Hf. subst.
  split; cbn; intros -> Hin.
  - rewrite readd_removed by done. by rewrite <- app_assoc.
  - rewrite remove_added by done. by rewrite <- app_assoc.
Qed.

Lemma pause_resume_round_trip_witness :
  snd (resume_reading (snd (pause_reading booted)))
  = set_trace (trace booted ++ [EvRemoveReader 3; EvAddReader 3]) booted.
Proof.
  refine (proj1 (pause_resume_round_trip 3 booted _ _) _ _).
  - reflexivity.
  - reflexivity.
  - reflexivity.
  - apply (bool_decide_unpack _). vm_compute. exact I.
Defined.

(** ** End of file *)

(** X6. A zero-byte read on an attached transport with nothing else queued:
    the descriptor is unregistered, the transport is paused and not closing,
    and [eof_received] and the finalization are queued in this order.  Two
    turns later [eof_received], then [connection_lost(None)], then the
    [os.close] of the descriptor have run, whether or not the callbacks
    raised (what [eof_received] returns or raises does not keep the
    transport open); the transport is finalized and nothing is left
    queued. *)
Theorem eof_lifecycle (fd : Z) (o o1 o2 : option exn) (w : World) :
  attached fd w -> ready w = [] ->
  let w1 := exec (Ready (Avail []) o) w in
  let w3 := run fd [RunNext o1; RunNext o2] w1 in
  ready w1 = [EofReceived; CallConnectionLost None]
  /\ _closing w1 = false /\ _active w1 = false /\ (fd ∉ readers w1)
  /\ trace w3
     = trace w ++ (if debug w then [EvLog "info"] else [])
       ++ [EvRemoveReader fd; EvEofReceived] ++ handler_events o1
       ++ [EvConnectionLost None; EvOsClose fd] ++ handler_events o2
  /\ finalized w3 /\ ready w3 = [].
Proof.
  intros (Hl & Hf & Hp) Hq. break_world w. cbn in Hl, Hf, Hp, Hq. subst.
  assert (W :
    exec (Ready (Avail []) o)
      (mkWorld [] rs dbg true (Some fd) true ac cl wt co tr)
    = mkWorld [EofReceived; CallConnectionLost None] (rs ∖ {[fd]}) dbg
        true (Some fd) true false false wt co
        ((tr ++ (if dbg then [EvLog "info"] else [])) ++ [EvRemoveReader fd])).
  { step_unfold. rewrite take_nil. destruct dbg; cbn [app]; [done|].
    by rewrite app_nil_r. }
  cbv zeta. rewrite W. clear W. unfold finalized.
  split_and!; try reflexivity; try apply not_elem_of_remove.
  all: destruct dbg, o1, o2; cbn; rewrite <- ?app_assoc; reflexivity.
Qed.

Lemma eof_lifecycle_witness :
  trace (run 3 [RunNext (Some (UserError 1)); RunNext None]
           (exec (Ready (Avail []) None) (set_ready [] booted)))
  = trace (set_ready [] booted) ++ []
    ++ [EvRemoveReader 3; EvEofReceived]
    ++ handler_events (Some (UserError 1))
    ++ [EvConnectionLost None; EvOsClose 3] ++ handler_events None.
Proof.
  refine (proj1 (proj2 (proj2 (proj2 (proj2
    (eof_lifecycle 3 None (Some (UserError 1)) None (set_ready [] booted)
       _ _)))))).
  - vm_compute. repeat split; reflexivity.
  - reflexivity.
Defined.

(** ** __repr__ on the states of a run *)

(** X7. The status shown by [__repr__] in the states a transport for [fd]
    goes through after its construction.  It is [paused] exactly when the
    transport is neither active nor closing, still holds its descriptor, and
    the descriptor is not 0; it is [closed] exactly when the transport is
    neither active nor closing and either holds no descriptor or holds
    descriptor 0.  The text is the class name, the status and [fd=] followed
    by the descriptor, or by None after the finalization. *)
Theorem repr_status (fd : Z) (wt : option Future) (l : World)
    (acts : list Action) :
  let w := run fd acts (__init__ fd wt l) in
  (status w = "paused"
   <-> _active w = false /\ _closing w = false
       /\ _fileno w = Some fd /\ fd <> 0)
  /\ (status w = "closed"
      <-> _active w = false /\ _closing w = false
          /\ (_fileno w = None \/ fd = 0))
  /\ __repr__ w
     = ("<UnixFileDescriptorTransport " ++ status w ++ " fd="
        ++ match _fileno w with Some _ => str_int fd | None => "None" end
        ++ ">")%string.
Proof.
  cbv zeta.
  pose proof (life_inv_run fd _ _ acts _ (life_inv_init fd wt l)) as H.
  revert H. generalize (run fd acts (__init__ fd wt l)). intros w.
  break_world w. unfold life_inv, attached, __repr__, status. cbn.
  intros [(([= ->] & [= ->] & [= ->]) & _)|([= ->] & [= ->] & [= ->] & _)];
    destruct ac, cl; try destruct (Z.eqb_spec fd 0);
    (split_and!; [split | split | reflexivity]);
    try (intros; discriminate);
    try (intros (? & ? & ? & ?); done);
    try (intros (? & ? & [?|?]); done);
    intros _; split_and!; auto.
Qed.

(** ** close() before the loop has run the constructor's callbacks *)

(** X8. [close()] right after the constructor, before the loop has run any
    of the three handles, on a loop with nothing else queued.  The handles
    still run: [connection_made] is called on the closing transport, and
    [resume_reading] registers the descriptor again and sets [_active].  The
    finalization that follows calls [connection_lost(None)] once and closes
    the descriptor, and leaves the transport finalized but active, with the
    closed descriptor still registered with the loop. *)
Theorem close_before_first_turn (fd : Z) (wt : option Future) (l : World)
    (o1 o2 o3 o4 : option exn) :
  ready l = [] ->
  let w := run fd [CallClose; RunNext o1; RunNext o2; RunNext o3; RunNext o4]
             (__init__ fd wt l) in
  finalized w /\ _active w = true /\ fd ∈ readers w
  /\ exists s,
       trace w
       = trace l ++ [EvRemoveReader fd; EvConnectionMade] ++ handler_events o1
         ++ [EvAddReader fd] ++ s
         ++ [EvConnectionLost None; EvOsClose fd] ++ handler_events o4
       /\ count is_connection_lost s = 0%nat.
Proof.
  intros Hq. break_world l. cbn in Hq. subst. cbv zeta. unfold finalized.
  destruct wt as [[| | |e]|], co, o1, o4; cbn;
    rewrite <- ?(@app_assoc Event); cbn [app];
    (split_and!; [reflexivity .. | apply elem_of_add | ]);
    first [ by exists [] | by eexists [_] ].
Qed.

Lemma close_before_first_turn_witness :
  let w := run 3 [CallClose; RunNext None; RunNext None; RunNext None;
                  RunNext None]
             (__init__ 3 (Some Pending) (fresh_loop false)) in
  finalized w /\ _active w = true.
Proof.
  cbv zeta.
  pose proof (close_before_first_turn 3 (Some Pending) (fresh_loop false)
                None None None None eq_refl) as H.
  exact (conj (proj1 H) (proj1 (proj2 H))).
Defined.

(** ** Cancelling the task that awaits stream_from_fd *)

(** X9. When the task awaiting [stream_from_fd] is cancelled before the
    loop has run the constructor's handles (nothing else queued), the
    coroutine ends with CancelledError, which [except Exception] does not
    catch: [transport.close()] is not called.  After the four handles have
    run the transport is attached, active and registered, not closing, with
    [connection_made] called and no [set_result]; nothing is left queued. *)
Theorem cancelled_await_leaves_transport_open (fd : Z) (l : World)
    (o1 o2 o3 o4 : option exn) :
  ready l = [] ->
  let w := run fd [CancelWaiter; RunNext o1; RunNext o2; RunNext o3;
                   RunNext o4]
             (stream_from_fd fd l) in
  coro w = Raised CancelledError /\ waiter w = Some Cancelled
  /\ attached fd w /\ _active w = true /\ _closing w = false
  /\ fd ∈ readers w /\ ready w = []
  /\ trace w
     = trace l ++ [EvConnectionMade] ++ handler_events o1 ++ [EvAddReader fd].
Proof.
  intros Hq. break_world l. cbn in Hq. subst. cbv zeta. unfold attached.
  destruct o1; cbn; rewrite <- ?(@app_assoc Event); cbn [app];
    split_and!; try reflexivity; apply elem_of_add.
Qed.

Lemma cancelled_await_leaves_transport_open_witness :
  let w := run 3 [CancelWaiter; RunNext None; RunNext None; RunNext None;
                  RunNext None]
             (stream_from_fd 3 (fresh_loop false)) in
  coro w = Raised CancelledError.
Proof.
  cbv zeta.
  exact (proj1 (cancelled_await_leaves_transport_open 3 (fresh_loop false)
                  None None None None eq_refl)).
Defined.

(** ** The waiter of stream_from_fd *)

Definition is_notify (t : Task) : bool :=
  match t with NotifyWaiter => true | _ => false end.

Definition is_wakeup (t : Task) : bool :=
  match t with Wakeup => true | _ => false end.

(** How many handles of a kind wait in the ready queue. *)
Definition tcount (p : Task -> bool) (q : list Task) : nat :=
  length (List.filter p q).
Arguments tcount : simpl never.

Definition is_set_result (e : Event) : bool :=
  match e with EvSetResult => true | _ => false end.

Definition is_return (e : Event) : bool :=
  match e with EvReturn => true | _ => false end.

Lemma tcount_nil p : tcount p [] = 0%nat.
Proof. reflexivity. Qed.

Lemma tcount_cons p t q :
  tcount p (t :: q) = ((if p t then 1 else 0) + tcount p q)%nat.
Proof. unfold tcount. cbn. by destruct (p t). Qed.

Lemma tcount_snoc p q t :
  tcount p (q ++ [t]) = (tcount p q + (if p t then 1 else 0))%nat.
Proof.
  unfold tcount. rewrite List.filter_app, length_app. cbn.
  by destruct (p t).
Qed.

Lemma tcount_foreign p q :
  (forall n, p (Foreign n) = false) ->
  forallb is_foreign q = true -> tcount p q = 0%nat.
Proof.
  intros Hp. induction q as [|t q IH]; [done|].
  cbn [forallb]. intros [Ht Hq]%andb_true_iff. rewrite tcount_cons, IH by done.
  destruct t; try discriminate. by rewrite Hp.
Qed.

(** Where the waiter, the coroutine and their handles stand: [bs] and [br]
    count the [set_result]s and the returns on record when [stream_from_fd]
    was called. *)
Definition wake_inv (bs br : nat) (w : World) : Prop :=
  let nw := tcount is_notify (ready w) in
  let wk := tcount is_wakeup (ready w) in
  let sr := count is_set_result (trace w) in
  let rt := count is_return (trace w) in
  match waiter w, coro w with
  | Some Pending, Awaiting =>
      nw = 1%nat /\ wk = 0%nat /\ sr = bs /\ rt = br
  | Some Cancelled, Awaiting =>
      (nw <= 1)%nat /\ wk = 1%nat /\ sr = bs /\ rt = br
  | Some Cancelled, Raised CancelledError =>
      (nw <= 1)%nat /\ wk = 0%nat /\ sr = bs /\ rt = br
  | Some Finished, Awaiting =>
      nw = 0%nat /\ wk = 1%nat /\ sr = S bs /\ rt = br
  | Some Finished, Returned =>
      nw = 0%nat /\ wk = 0%nat /\ sr = S bs /\ rt = S br
  | _, _ => False
  end.

Ltac wake_simpl :=
  rewrite ?count_snoc, ?tcount_snoc, ?tcount_cons, ?tcount_nil in *;
  cbn [is_set_result is_return is_notify is_wakeup Nat.add] in *;
  rewrite ?Nat.add_0_r in *.

Ltac wake_done :=
  solve [ contradiction
        | match goal with H : _ /\ _ |- _ =>
            destruct H as (? & ? & ? & ?); split_and!;
            first [assumption | lia]
          end ].

Lemma wake_inv_exec bs br a w :
  wake_inv bs br w -> wake_inv bs br (exec a w).
Proof.
  break_world w. intros H. unfold wake_inv in H. cbn in H.
  destruct wt as [[| | |e]|]; destruct co as [| | |e'];
    try destruct e'; try (destruct H; fail).
  all: step_cases.
  all: unfold wake_inv;
    cbn [ready waiter coro trace set_ready set_waiter set_coro set_trace].
  all: wake_simpl.
  all: wake_done.
Qed.

Lemma wake_inv_init fd l :
  forallb is_foreign (ready l) = true ->
  wake_inv (count is_set_result (trace l)) (count is_return (trace l))
    (stream_from_fd fd l).
Proof.
  intros Hq. unfold wake_inv. cbn.
  rewrite (app_assoc _ [ConnectionMade; ResumeReading] [NotifyWaiter]).
  rewrite (app_assoc _ [ConnectionMade] [ResumeReading]).
  rewrite !tcount_snoc, !tcount_foreign by done. split_and!; reflexivity.
Qed.



(** ** The constructor's handles, for every waiter *)

(** What the wake-up of the waiter leaves on record: [set_result] on a pending
    future, nothing on a cancelled one, and an exception for the loop's
    handler when there is no future ([None.cancelled()]) or when the future
    is done already. *)
Definition notify_events (wt : option Future) : list Event :=
  match wt with
  | Some Pending => [EvSetResult]
  | Some Cancelled => []
  | Some _ => [EvExceptionHandler "Exception in callback" InvalidStateError]
  | None => [EvExceptionHandler "Exception in callback" AttributeError]
  end.

(** X11. The three handles of the constructor, on a loop with nothing else
    queued, for every waiter.  After three turns the transport is attached,
    active and registered, whatever [connection_made] and the wake-up did.  A
    pending waiter gets its result; a cancelled one is left alone; without a
    waiter (None) the wake-up raises AttributeError, and with a waiter that
    is done already InvalidStateError: both go to the loop's exception
    handler. *)
Theorem constructor_boot (fd : Z) (wt : option Future) (l : World)
    (o1 o2 o3 : option exn) :
  ready l = [] ->
  let w := run fd [RunNext o1; RunNext o2; RunNext o3] (__init__ fd wt l) in
  attached fd w /\ _active w = true /\ _closing w = false
  /\ readers w = {[fd]} ∪ readers l
  /\ trace w = trace l ++ [EvConnectionMade] ++ handler_events o1
               ++ [EvAddReader fd] ++ notify_events wt
  /\ waiter w = match wt with Some Pending => Some Finished | _ => wt end.
Proof.
  intros Hq. break_world l. cbn in Hq. subst. cbv zeta. unfold attached.
  destruct wt as [[| | |e]|], co, o1; cbn;
    rewrite <- ?(@app_assoc Event); cbn [app]; rewrite ?app_nil_r;
    split_and!; reflexivity.
Qed.

Lemma constructor_boot_witness :
  trace (run 3 [RunNext None; RunNext None; RunNext None]
           (__init__ 3 None (fresh_loop false)))
  = trace (fresh_loop false) ++ [EvConnectionMade] ++ handler_events None
    ++ [EvAddReader 3] ++ notify_events None.
Proof.
  exact (proj1 (proj2 (proj2 (proj2 (proj2
    (constructor_boot 3 None (fresh_loop false) None None None eq_refl)))))).
Defined.

(** X12. [stream_from_fd] on a loop with nothing else queued: after four
    turns the coroutine has returned, the waiter is finished, the transport
    is attached, active and registered, and the record shows
    [connection_made], the registration, [set_result], the debug line if the
    loop is in debug mode, and the return, in this order.  An exception
    raised by [connection_made] goes to the loop's exception handler and
    does not stop the coroutine from returning. *)
Theorem stream_from_fd_completes (fd : Z) (l : World)
    (o1 o2 o3 o4 : option exn) :
  ready l = [] ->
  let w := run fd [RunNext o1; RunNext o2; RunNext o3; RunNext o4]
             (stream_from_fd fd l) in
  coro w = Returned /\ waiter w = Some Finished
  /\ attached fd w /\ _active w = true /\ _closing w = false
  /\ readers w = {[fd]} ∪ readers l /\ ready w = []
  /\ trace w = trace l ++ [EvConnectionMade] ++ handler_events o1
               ++ [EvAddReader fd; EvSetResult]
               ++ (if debug l then [EvLog "debug"] else []) ++ [EvReturn].
Proof.
  intros Hq. break_world l. cbn in Hq. subst. cbv zeta. unfold attached.
  destruct o1, dbg; cbn; rewrite <- ?(@app_assoc Event); cbn [app];
    split_and!; reflexivity.
Qed.

Lemma stream_from_fd_completes_witness :
  coro (run 3 [RunNext (Some (UserError 7)); RunNext None; RunNext None;
               RunNext None]
          (stream_from_fd 3 (fresh_loop true)))
  = Returned.
Proof.
  exact (proj1 (stream_from_fd_completes 3 (fresh_loop true)
                  (Some (UserError 7)) None None None eq_refl)).
Defined.

(** ** close() between a zero-byte read and its finalization *)

(** X13. A zero-byte read resets [_closing], so a [close()] between the
    read and its finalization passes the guard and queues a second
    finalization behind the first.  On an attached transport with nothing
    else queued, the three handles then run as follows: [eof_received]; the
    first finalization, which calls [connection_lost(None)] and closes the
    descriptor; the second, which calls nothing, closes nothing and whose
    TypeError goes to the loop's exception handler. *)
Theorem eof_then_close_finalizes_twice (fd : Z) (w : World)
    (o o1 o2 o3 : option exn) :
  attached fd w -> ready w = [] ->
  let w1 := exec (Ready (Avail []) o) w in
  let w2 := exec CallClose w1 in
  let w5 := run fd [RunNext o1; RunNext o2; RunNext o3] w2 in
  ready w2 = [EofReceived; CallConnectionLost None; CallConnectionLost None]
  /\ trace w5
     = trace w2 ++ [EvEofReceived] ++ handler_events o1
       ++ [EvConnectionLost None; EvOsClose fd] ++ handler_events o2
       ++ [EvExceptionHandler "Exception in callback" TypeError]
  /\ finalized w5 /\ ready w5 = [].
Proof.
  intros (Hl & Hf & Hp) Hq. break_world w. cbn in Hl, Hf, Hp, Hq. subst.
  assert (W :
    exec (Ready (Avail []) o)
      (mkWorld [] rs dbg true (Some fd) true ac cl wt co tr)
    = mkWorld [EofReceived; CallConnectionLost None] (rs ∖ {[fd]}) dbg
        true (Some fd) true false false wt co
        ((tr ++ (if dbg then [EvLog "info"] else [])) ++ [EvRemoveReader fd])).
  { step_unfold. rewrite take_nil. destruct dbg; cbn [app]; [done|].
    by rewrite app_nil_r. }
  cbv zeta. rewrite W. clear W. unfold finalized.
  split_and!; try reflexivity.
  all: destruct o1, o2; cbn; rewrite <- ?(@app_assoc Event); reflexivity.
Qed.

Lemma eof_then_close_finalizes_twice_witness :
  ready (exec CallClose (exec (Ready (Avail []) None) (set_ready [] booted)))
  = [EofReceived; CallConnectionLost None; CallConnectionLost None].
Proof.
  refine (proj1 (eof_then_close_finalizes_twice 3 (set_ready [] booted)
                   None None None None _ eq_refl)).
  vm_compute. repeat split; reflexivity.
Defined.

End Transport.

(** * The watcher

    [aionotify/base.py], which holds the Watcher, is not among the sources at
    hand; its tests are.  This part models it from the specification. *)

Module Watcher.

(** ** Data model *)

(** Modelled from the spec: the RawRecord of the data model (section 3), as
    the missing [aionotify/base.py] reads it off the descriptor. *)
Record RawRecord := mkRecord {
  r_wd : Z;          (* watch id *)
  r_mask : Z;        (* bitset of change flags *)
  r_cookie : Z;      (* correlation token, 0 if unused *)
  r_name : string    (* possibly empty *)
}.

(** Modelled from the spec: the consumer-visible Event of [aionotify/base.py]
    (section 3). *)
Record Event := mkEvent {
  name : string;
  flags : Z;
  cookie : Z;
  alias : string
}.

(** Modelled from the spec: the WatchRequest that [aionotify/base.py] keeps
    (section 3); the alias is the path when none is given. *)
Record WatchRequest := mkRequest {
  q_path : string;
  q_mask : Z;
  q_alias : string
}.

(** Modelled from the spec: the ActiveWatch of [aionotify/base.py]
    (section 3). *)
Record ActiveWatch := mkWatch {
  aw_id : Z;
  aw_alias : string;
  aw_path : string;
  aw_mask : Z
}.

(** Modelled from the spec: the error kinds that [aionotify/base.py] raises
    (section 7), and the failure of an operation called in a state where it
    is not valid. *)
Inductive Error := Duplicate | Unknown | OSErr | InvalidState.

(** ** RecordDecoder *)

(** The fixed-size header of a binary unit: watch id, mask, cookie and the
    length of the name field that follows. *)
Record Header := mkHeader {
  h_wd : Z;
  h_mask : Z;
  h_cookie : Z;
  h_len : nat
}.

(** Modelled from the spec: the decoding of the name field in
    [aionotify/base.py]: trailing padding and the terminating NUL are
    stripped (section 4.2). *)
Fixpoint strip_nul (bs : list byte) : list byte :=
  match bs with
  | [] => []
  | b :: bs' =>
      match strip_nul bs' with
      | [] => match b with x00 => [] | _ => [b] end
      | r => b :: r
      end
  end.

Section Decoder.

(** The layout of the header is the kernel's; the spec gives its fields and
    that its size is fixed. *)
Variable header_size : nat.
Variable encode_header : Header -> list byte.
Variable decode_header : list byte -> Header.

(** Modelled from the spec: the record decoder of [aionotify/base.py]: one
    complete record at the front of the buffer, if there is one (section
    4.2): the header, then a name field of the length the header gives. *)
Definition parse_one (buf : list byte) : option (RawRecord * list byte) :=
  if (length buf <? header_size)%nat then None
  else
    let h := decode_header (take header_size buf) in
    let body := drop header_size buf in
    if (length body <? h_len h)%nat then None
    else Some (mkRecord (h_wd h) (h_mask h) (h_cookie h)
                 (String.string_of_list_byte (strip_nul (take (h_len h) body))),
               drop (h_len h) body).

(** All complete records of the buffer, in their order, and the incomplete
    rest.  [fuel] bounds the number of records. *)
Fixpoint parse_all (fuel : nat) (buf : list byte)
  : list RawRecord * list byte :=
  match fuel with
  | O => ([], buf)
  | S fuel' =>
      match parse_one buf with
      | None => ([], buf)
      | Some (r, rest) =>
          let (rs, rem) := parse_all fuel' rest in (r :: rs, rem)
      end
  end.

(** Modelled from the spec: the buffering of the decoder of
    [aionotify/base.py]: a chunk is appended to the buffered partial bytes
    and the whole is parsed again; what is incomplete stays buffered. *)
Definition feed (buf chunk : list byte) : list RawRecord * list byte :=
  parse_all (length (buf ++ chunk)) (buf ++ chunk).

(** Feeding chunks one after the other. *)
Fixpoint feed_all (buf : list byte) (chunks : list (list byte))
  : list RawRecord * list byte :=
  match chunks with
  | [] => ([], buf)
  | c :: cs =>
      let (rs, buf') := feed buf c in
      let (rs', buf'') := feed_all buf' cs in
      (rs ++ rs', buf'')
  end.

(** What the kernel writes for a record: the header, the name, [pad] NUL
    bytes of padding. *)
Definition encode_record (r : RawRecord) (pad : nat) : list byte :=
  let nm := String.list_byte_of_string (r_name r) in
  encode_header (mkHeader (r_wd r) (r_mask r) (r_cookie r)
                   (length nm + pad))
  ++ nm ++ repeat x00 pad.

Fixpoint encode_all (rs : list (RawRecord * nat)) : list byte :=
  match rs with
  | [] => []
  | (r, pad) :: rs' => encode_record r pad ++ encode_all rs'
  end.

(** A name the kernel can report: no NUL byte in it. *)
Definition name_ok (r : RawRecord) : Prop :=
  Forall (fun b => b <> x00) (String.list_byte_of_string (r_name r)).

Variable wf_header : Header -> Prop.

Definition wf_record (rp : RawRecord * nat) : Prop :=
  name_ok (fst rp)
  /\ wf_header (mkHeader (r_wd (fst rp)) (r_mask (fst rp)) (r_cookie (fst rp))
                  (length (String.list_byte_of_string (r_name (fst rp))) + snd rp)).

Hypothesis header_size_pos : (0 < header_size)%nat.
Hypothesis encode_header_length :
  forall h, length (encode_header h) = header_size.
Hypothesis decode_encode_header :
  forall h, wf_header h -> decode_header (encode_header h) = h.

Lemma strip_nul_padding bs k :
  Forall (fun b => b <> x00) bs -> strip_nul (bs ++ repeat x00 k) = bs.
Proof.
  induction 1 as [|b bs Hb _ IH]; cbn.
  - induction k as [|k IH]; cbn; [done|]. by rewrite IH.
  - rewrite IH. destruct bs; [|done]. by destruct b.
Qed.

Lemma parse_one_encoded r pad rest :
  wf_record (r, pad) ->
  parse_one (encode_record r pad ++ rest) = Some (r, rest).
Proof.
  intros [Hn Hw]. cbn in Hn, Hw. unfold parse_one, encode_record.
  set (nm := String.list_byte_of_string (r_name r)) in *.
  set (h := mkHeader _ _ _ _) in *.
  rewrite <- !app_assoc.
  assert (Hlen : length (encode_header h) = header_size)
    by apply encode_header_length.
  destruct (Nat.ltb_spec (length (encode_header h ++ nm ++ repeat x00 pad ++ rest))
              header_size) as [Hlt|_].
  { rewrite length_app in Hlt. lia. }
  rewrite take_app_length' by done. rewrite drop_app_length' by done.
  rewrite decode_encode_header by done. cbn [h_len h h_wd h_mask h_cookie].
  destruct (Nat.ltb_spec (length (nm ++ repeat x00 pad ++ rest))
              (length nm + pad)) as [Hlt|_].
  { rewrite !length_app, repeat_length in Hlt. lia. }
  rewrite (app_assoc nm).
  rewrite take_app_length' by (by rewrite length_app, repeat_length).
  rewrite drop_app_length' by (by rewrite length_app, repeat_length).
  rewrite strip_nul_padding by done. unfold nm.
  rewrite String.string_of_list_byte_of_string. by destruct r.
Qed.

Definition parse (buf : list byte) : list RawRecord * list byte :=
  parse_all (length buf) buf.

Lemma parse_one_shorter buf r rest :
  parse_one buf = Some (r, rest) -> (length rest < length buf)%nat.
Proof.
  unfold parse_one.
  destruct (Nat.ltb_spec (length buf) header_size) as [|H1]; [done|].
  destruct (Nat.ltb_spec (length (drop header_size buf))
              (h_len (decode_header (take header_size buf)))) as [|H2];
    [done|].
  intros [= _ <-]. rewrite !length_drop. lia.
Qed.

Lemma parse_one_app a b r rest :
  parse_one a = Some (r, rest) -> parse_one (a ++ b) = Some (r, rest ++ b).
Proof.
  unfold parse_one.
  destruct (Nat.ltb_spec (length a) header_size) as [|H1]; [done|].
  destruct (Nat.ltb_spec (length (drop header_size a))
              (h_len (decode_header (take header_size a)))) as [|H2]; [done|].
  intros [= <- <-].
  destruct (Nat.ltb_spec (length (a ++ b)) header_size) as [H3|_].
  { rewrite length_app in H3. lia. }
  rewrite take_app_le by done. rewrite drop_app_le by done.
  destruct (Nat.ltb_spec (length (drop header_size a ++ b))
              (h_len (decode_header (take header_size a)))) as [H4|_].
  { rewrite length_app in H4. lia. }
  rewrite take_app_le by done. rewrite drop_app_le by done. reflexivity.
Qed.

Lemma parse_one_nil : parse_one [] = None.
Proof.
  unfold parse_one. destruct (Nat.ltb_spec (length (@nil byte)) header_size);
    [done | cbn in *; lia].
Qed.

(** Any fuel that covers the length of the buffer gives the same result:
    every record takes at least the header. *)
Lemma parse_all_fuel f1 f2 buf :
  (length buf <= f1)%nat -> (length buf <= f2)%nat ->
  parse_all f1 buf = parse_all f2 buf.
Proof.
  revert f2 buf. induction f1 as [|f1 IH]; intros f2 buf H1 H2.
  - destruct buf; [|cbn in H1; lia].
    destruct f2; cbn; [done|]. by rewrite parse_one_nil.
  - destruct f2 as [|f2].
    + destruct buf; [|cbn in H2; lia]. cbn. by rewrite parse_one_nil.
    + cbn. destruct (parse_one buf) as [[r rest]|] eqn:E; [|done].
      apply parse_one_shorter in E.
      rewrite (IH f2 rest) by lia. reflexivity.
Qed.

Lemma parse_all_app fuel a b :
  (length a <= fuel)%nat ->
  parse (a ++ b)
  = let (rs, rem) := parse_all fuel a in
    let (rs2, rem2) := parse (rem ++ b) in (rs ++ rs2, rem2).
Proof.
  revert a. induction fuel as [|fuel IH]; intros a Ha.
  - destruct a; [|cbn in Ha; lia]. cbn [parse_all app].
    by destruct (parse b).
  - cbn [parse_all]. destruct (parse_one a) as [[r rest]|] eqn:E.
    + assert (Hlt := parse_one_shorter _ _ _ E).
      assert (E' := parse_one_app a b r rest E).
      unfold parse at 1.
      destruct (length (a ++ b)) as [|n] eqn:Hn.
      { rewrite length_app in Hn. lia. }
      cbn [parse_all]. rewrite E'.
      assert (Hn' := parse_one_shorter _ _ _ E'). rewrite Hn in Hn'.
      rewrite (parse_all_fuel n (length (rest ++ b))) by lia.
      fold (parse (rest ++ b)). rewrite (IH rest) by lia.
      destruct (parse_all fuel rest) as [rs rem].
      by destruct (parse (rem ++ b)).
    + by destruct (parse (a ++ b)).
Qed.

(** What parsing leaves in the buffer holds no complete record. *)
Lemma parse_all_rem fuel buf :
  (length buf <= fuel)%nat -> parse_one (snd (parse_all fuel buf)) = None.
Proof.
  revert buf. induction fuel as [|fuel IH]; intros buf Hb.
  - destruct buf; [|cbn in Hb; lia]. apply parse_one_nil.
  - cbn. destruct (parse_one buf) as [[r rest]|] eqn:E; [|done].
    apply parse_one_shorter in E. specialize (IH rest).
    destruct (parse_all fuel rest). apply IH. lia.
Qed.

Lemma parse_none buf : parse_one buf = None -> parse buf = ([], buf).
Proof.
  intros H. unfold parse. destruct (length buf); cbn; [done|]. by rewrite H.
Qed.

(** Chunk boundaries do not matter: feeding the chunks one by one gives the
    records of the whole stream, in order. *)
Lemma feed_all_concat buf chunks :
  parse_one buf = None ->
  feed_all buf chunks = parse (buf ++ concat chunks).
Proof.
  revert buf. induction chunks as [|c cs IH]; intros buf Hbuf; cbn.
  - rewrite app_nil_r. by rewrite parse_none.
  - rewrite app_assoc.
    rewrite (parse_all_app (length (buf ++ c)) (buf ++ c)) by done.
    unfold feed.
    assert (Hrem := parse_all_rem (length (buf ++ c)) (buf ++ c) (le_n _)).
    destruct (parse_all (length (buf ++ c)) (buf ++ c)) as [rs rem].
    cbn in Hrem. by rewrite IH.
Qed.

Lemma parse_encoded rs :
  Forall wf_record rs -> parse (encode_all rs) = (map fst rs, []).
Proof.
  induction 1 as [|[r pad] rs Hr _ IH]; [done|].
  unfold parse. cbn [encode_all map fst].
  destruct (length (encode_record r pad ++ encode_all rs)) as [|n] eqn:Hn.
  { unfold encode_record in Hn.
    rewrite !length_app, encode_header_length in Hn. lia. }
  cbn [parse_all]. rewrite parse_one_encoded by done.
  rewrite (parse_all_fuel n (length (encode_all rs))).
  - fold (parse (encode_all rs)). by rewrite IH.
  - unfold encode_record in Hn.
    rewrite !length_app, encode_header_length in Hn. lia.
  - done.
Qed.

(** The decoder on a stream of well-formed records, cut into chunks in any
    way: all the records, in the order of the stream, nothing left over. *)
Lemma decode_stream rs chunks :
  Forall wf_record rs -> concat chunks = encode_all rs ->
  feed_all [] chunks = (map fst rs, []).
Proof.
  intros Hrs Hc. rewrite feed_all_concat by apply parse_one_nil.
  cbn. rewrite Hc. by apply parse_encoded.
Qed.

End Decoder.

(** ** WatchRegistry *)

Inductive Result (A : Type) := Ok (a : A) | Err (e : Error).
Arguments Ok {A} a.
Arguments Err {A} e.

(** Modelled from the spec: the watch registry of [aionotify/base.py], the
    bidirectional mapping between aliases and watch ids (sections 2 and
    4.3). *)
Record Registry := mkRegistry {
  by_alias : gmap string ActiveWatch;
  by_id : gmap Z string
}.

Definition empty_registry : Registry := mkRegistry ∅ ∅.

(** Modelled from the spec: [register(alias, watchId, path, mask)] fails with
    a Duplicate-kind error if the alias already maps to an active watch. *)
Definition register (a : string) (wd : Z) (path : string) (mask : Z)
    (reg : Registry) : Result unit * Registry :=
  match by_alias reg !! a with
  | Some _ => (Err Duplicate, reg)
  | None =>
      (Ok tt, mkRegistry (<[a := mkWatch wd a path mask]> (by_alias reg))
                         (<[wd := a]> (by_id reg)))
  end.

(** Modelled from the spec: [resolve(watchId) -> alias]. *)
Definition resolve (wd : Z) (reg : Registry) : option string :=
  by_id reg !! wd.

(** Modelled from the spec: [remove(alias)] fails with an Unknown-kind error
    if the alias has no active watch. *)
Definition remove (a : string) (reg : Registry) : Result Z * Registry :=
  match by_alias reg !! a with
  | None => (Err Unknown, reg)
  | Some aw =>
      (Ok (aw_id aw),
       mkRegistry (delete a (by_alias reg)) (delete (aw_id aw) (by_id reg)))
  end.

(** Modelled from the spec: [removeByWatchId(watchId)], which frees the
    alias. *)
Definition remove_by_watch_id (wd : Z) (reg : Registry) : Registry :=
  match by_id reg !! wd with
  | None => reg
  | Some a => mkRegistry (delete a (by_alias reg)) (delete wd (by_id reg))
  end.

(** ** Watcher *)

Inductive WState := Uninitialized | Ready | Closed.

(** Modelled from the spec: the class Watcher of [aionotify/base.py]
    (section 4.4), with its pending requests, its registry, the descriptor
    of the notification channel, the decoder's buffer and the queue of
    events. *)
Record Watcher := mkWatcher {
  state : WState;
  pending : list WatchRequest;
  registry : Registry;
  descriptor : option Z;
  buffer : list byte;
  queue : list Event
}.

Definition new_watcher : Watcher :=
  mkWatcher Uninitialized [] empty_registry None [] [].

Definition set_registry (reg : Registry) (w : Watcher) : Watcher :=
  mkWatcher (state w) (pending w) reg (descriptor w) (buffer w) (queue w).

(** Modelled from the spec: what [getEvent()] gives: the next event, the end
    of the events, or a suspension until something is queued. *)
Inductive GetResult := Got (e : Event) | EndOfEvents | Suspend.

Section Model.

(** The header layout, as for the decoder. *)
Variable header_size : nat.
Variable decode_header : list byte -> Header.

(** The flag for the kernel's own removal of a watch ("ignored"). *)
Variable IGNORED : Z.

(** The kernel collaborator (section 6), with its state [K]: opening the
    channel, adding and removing a watch, releasing the descriptor.  [None]
    is a failure of OSError kind. *)
Variable K : Type.
Variable k_open : K -> option (Z * K).
Variable k_add_watch : Z -> string -> Z -> K -> option (Z * K).
Variable k_remove_watch : Z -> Z -> K -> K.
Variable k_close : Z -> K -> K.

(** Modelled from the spec: a watch request realized against the kernel and
    the registry (section 4.4, [watch] in state ready): Duplicate-kind error
    on an alias in use, OSError-kind error when the kernel refuses the path.
    A failure changes nothing. *)
Definition setup_watch (req : WatchRequest) (kw : K * Watcher)
  : Result unit * (K * Watcher) :=
  let (k, w) := kw in
  match by_alias (registry w) !! q_alias req, descriptor w with
  | Some _, _ => (Err Duplicate, kw)
  | None, None => (Err InvalidState, kw)
  | None, Some fd =>
      match k_add_watch fd (q_path req) (q_mask req) k with
      | None => (Err OSErr, kw)
      | Some (wd, k') =>
          (Ok tt,
           (k', set_registry
                  (snd (register (q_alias req) wd (q_path req) (q_mask req)
                          (registry w))) w))
      end
  end.

(** Modelled from the spec: [watch(path, mask, alias=None)] (section 4.4). *)
Definition watch (path : string) (mask : Z) (a : option string)
    (kw : K * Watcher) : Result unit * (K * Watcher) :=
  let req := mkRequest path mask (default path a) in
  let (k, w) := kw in
  match state w with
  | Uninitialized =>
      (Ok tt, (k, mkWatcher (state w) (pending w ++ [req]) (registry w)
                    (descriptor w) (buffer w) (queue w)))
  | Ready => setup_watch req kw
  | Closed => (Err InvalidState, kw)
  end.

(** Modelled from the spec: the pending requests are realized in the order
    of their submission; the first failure aborts. *)
Fixpoint realize (reqs : list WatchRequest) (kw : K * Watcher)
  : Result unit * (K * Watcher) :=
  match reqs with
  | [] => (Ok tt, kw)
  | req :: reqs' =>
      match setup_watch req kw with
      | (Ok _, kw') => realize reqs' kw'
      | (Err e, kw') => (Err e, kw')
      end
  end.

(** Modelled from the spec: [setup()] (section 4.4): the channel is opened,
    the watcher is ready, the pending requests become active. *)
Definition setup (kw : K * Watcher) : Result unit * (K * Watcher) :=
  let (k, w) := kw in
  match state w with
  | Uninitialized =>
      match k_open k with
      | None => (Err OSErr, kw)
      | Some (fd, k') =>
          realize (pending w)
            (k', mkWatcher Ready [] (registry w) (Some fd) (buffer w)
                   (queue w))
      end
  | _ => (Err InvalidState, kw)
  end.

(** Modelled from the spec: [unwatch(alias)], valid only in state ready. *)
Definition unwatch (a : string) (kw : K * Watcher)
  : Result unit * (K * Watcher) :=
  let (k, w) := kw in
  match state w, descriptor w with
  | Ready, Some fd =>
      match remove a (registry w) with
      | (Ok wd, reg') => (Ok tt, (k_remove_watch fd wd k, set_registry reg' w))
      | (Err e, _) => (Err e, kw)
      end
  | _, _ => (Err InvalidState, kw)
  end.

(** Modelled from the spec: [close()], idempotent: the descriptor is
    released, the registry cleared, the queued events stay. *)
Definition close (kw : K * Watcher) : K * Watcher :=
  let (k, w) := kw in
  match state w with
  | Closed => kw
  | _ =>
      (match descriptor w with Some fd => k_close fd k | None => k end,
       mkWatcher Closed (pending w) empty_registry None (buffer w) (queue w))
  end.

Definition self_removal (r : RawRecord) : bool :=
  negb (Z.land (r_mask r) IGNORED =? 0).

(** The event a record gives under a registry: none if the watch id is
    unknown, none if no flag of the record is in the mask of the watch. *)
Definition event_of (reg : Registry) (r : RawRecord) : option Event :=
  match resolve (r_wd r) reg with
  | None => None
  | Some a =>
      match by_alias reg !! a with
      | None => None
      | Some aw =>
          let f := Z.land (r_mask r) (aw_mask aw) in
          if f =? 0 then None
          else Some (mkEvent (r_name r) f (r_cookie r) (aw_alias aw))
      end
  end.

(** Modelled from the spec: record-to-event translation (section 4.4, steps
    1 to 4): the alias is resolved, a self-removed watch leaves the registry,
    the mask of the watch filters, the event goes to the end of the queue. *)
Definition translate (rq : Registry * list Event) (r : RawRecord)
  : Registry * list Event :=
  let (reg, q) := rq in
  let ev := event_of reg r in
  let reg' := if self_removal r then remove_by_watch_id (r_wd r) reg
              else reg in
  match ev with
  | None => (reg', q)
  | Some e => (reg', q ++ [e])
  end.

(** Modelled from the spec: the [onData] callback of the descriptor stream:
    the chunk goes through the decoder, the records through the
    translation. *)
Definition on_data (chunk : list byte) (w : Watcher) : Watcher :=
  match state w with
  | Ready =>
      let (rs, buf') := feed header_size decode_header (buffer w) chunk in
      let (reg', q') := fold_left translate rs (registry w, queue w) in
      mkWatcher (state w) (pending w) reg' (descriptor w) buf' q'
  | _ => w
  end.

(** Modelled from the spec: [getEvent()] (section 4.4). *)
Definition get_event (w : Watcher) : GetResult * Watcher :=
  match queue w with
  | e :: q' =>
      (Got e, mkWatcher (state w) (pending w) (registry w) (descriptor w)
                (buffer w) q')
  | [] =>
      match state w with
      | Closed => (EndOfEvents, w)
      | _ => (Suspend, w)
      end
  end.

(** [n] calls of [getEvent()] in a row. *)
Fixpoint get_events (n : nat) (w : Watcher) : list GetResult * Watcher :=
  match n with
  | O => ([], w)
  | S n' =>
      let (r, w') := get_event w in
      let (rs, w'') := get_events n' w' in
      (r :: rs, w'')
  end.

(** The chunks the descriptor stream delivers, one [onData] call each. *)
Definition feed_chunks (chunks : list (list byte)) (w : Watcher) : Watcher :=
  fold_left (fun w c => on_data c w) chunks w.

Lemma feed_chunks_ready chunks w :
  state w = Ready ->
  feed_chunks chunks w
  = let (rs, buf') := feed_all header_size decode_header (buffer w) chunks in
    let (reg', q') := fold_left translate rs (registry w, queue w) in
    mkWatcher Ready (pending w) reg' (descriptor w) buf' q'.
Proof.
  revert w. induction chunks as [|c cs IH]; intros w Hw.
  - cbn. destruct w; cbn in *. by subst.
  - cbn [feed_chunks fold_left feed_all]. fold (feed_chunks cs (on_data c w)).
    unfold on_data at 1. rewrite Hw.
    destruct (feed header_size decode_header (buffer w) c) as [rs buf'].
    destruct (fold_left translate rs (registry w, queue w)) as [reg' q'] eqn:E.
    rewrite IH by done. cbn [buffer registry queue pending descriptor].
    destruct (feed_all header_size decode_header buf' cs) as [rs' buf''].
    rewrite fold_left_app, E. reflexivity.
Qed.

(** The registry after a record: a watch the kernel removed is gone. *)
Definition registry_after (reg : Registry) (r : RawRecord) : Registry :=
  if self_removal r then remove_by_watch_id (r_wd r) reg else reg.

(** The events of records that each reach a watch that is active when the
    record arrives, with a flag of its mask: [None] as soon as one does
    not. *)
Fixpoint events_expected (reg : Registry) (rs : list RawRecord)
  : option (list Event) :=
  match rs with
  | [] => Some []
  | r :: rs' =>
      match event_of reg r, events_expected (registry_after reg r) rs' with
      | Some e, Some evs => Some (e :: evs)
      | _, _ => None
      end
  end.

Lemma translate_all reg q rs evs :
  events_expected reg rs = Some evs ->
  fold_left translate rs (reg, q)
  = (fold_left registry_after rs reg, q ++ evs).
Proof.
  revert reg q evs. induction rs as [|r rs IH]; intros reg q evs H.
  - injection H as <-. by rewrite app_nil_r.
  - cbn in H. destruct (event_of reg r) as [e|] eqn:He; [|done].
    destruct (events_expected (registry_after reg r) rs) as [evs'|] eqn:E;
      [|done].
    injection H as <-. cbn [fold_left translate]. rewrite He.
    fold (registry_after reg r). rewrite (IH _ _ evs') by done.
    by rewrite <- app_assoc.
Qed.

Lemma events_expected_length reg rs evs :
  events_expected reg rs = Some evs -> length evs = length rs.
Proof.
  revert reg evs. induction rs as [|r rs IH]; intros reg evs H.
  - by injection H as <-.
  - cbn in H. destruct (event_of reg r); [|done].
    destruct (events_expected (registry_after reg r) rs) eqn:E; [|done].
    injection H as <-. cbn. f_equal. by eapply IH.
Qed.

Lemma event_of_fields reg r e :
  event_of reg r = Some e -> name e = r_name r /\ cookie e = r_cookie r.
Proof.
  unfold event_of. destruct (resolve (r_wd r) reg) as [a|]; [|done].
  destruct (by_alias reg !! a) as [aw|]; [|done].
  destruct (_ =? 0); [done|]. by intros [= <-].
Qed.

Lemma events_expected_fields reg rs evs :
  events_expected reg rs = Some evs ->
  Forall2 (fun r e => name e = r_name r /\ cookie e = r_cookie r) rs evs.
Proof.
  revert reg evs. induction rs as [|r rs IH]; intros reg evs H.
  - injection H as <-. constructor.
  - cbn in H. destruct (event_of reg r) eqn:He; [|done].
    destruct (events_expected (registry_after reg r) rs) eqn:E; [|done].
    injection H as <-. constructor; [by apply (event_of_fields reg)|].
    by eapply IH.
Qed.

Lemma get_events_queue w evs :
  queue w = evs -> state w = Ready ->
  get_events (length evs + 1) w
  = (map Got evs ++ [Suspend],
     mkWatcher Ready (pending w) (registry w) (descriptor w) (buffer w) []).
Proof.
  revert w. induction evs as [|e evs IH]; intros w Hq Hs.
  - cbn. unfold get_event. rewrite Hq, Hs. destruct w; cbn in *. by subst.
  - cbn [length Nat.add get_events]. unfold get_event at 1. rewrite Hq.
    rewrite IH by done. reflexivity.
Qed.

Section Delivery.

Variable encode_header : Header -> list byte.
Variable wf_header : Header -> Prop.
Hypothesis header_size_pos : (0 < header_size)%nat.
Hypothesis encode_header_length :
  forall h, length (encode_header h) = header_size.
Hypothesis decode_encode_header :
  forall h, wf_header h -> decode_header (encode_header h) = h.

(** From the bytes the kernel wrote to the queue of the watcher. *)
Lemma deliver w rs evs chunks :
  state w = Ready -> buffer w = [] ->
  Forall (wf_record wf_header) rs ->
  events_expected (registry w) (map fst rs) = Some evs ->
  concat chunks = encode_all encode_header rs ->
  feed_chunks chunks w
  = mkWatcher Ready (pending w)
      (fold_left registry_after (map fst rs) (registry w))
      (descriptor w) [] (queue w ++ evs).
Proof.
  intros Hs Hb Hwf Hev Hc. rewrite feed_chunks_ready by done. rewrite Hb.
  rewrite (decode_stream header_size encode_header decode_header wf_header
             header_size_pos encode_header_length decode_encode_header
             rs chunks Hwf Hc).
  by rewrite (translate_all (registry w) (queue w) (map fst rs) evs).
Qed.

(** C6. A started watcher with nothing buffered; [rs] the records the kernel
    wrote, in the order of the mutations, each for a watch that is active
    when the record arrives and with a flag of its mask (so each has its
    event; a record that reports the removal of its watch ends it); the
    stream cut into chunks in any way.  Then the events are queued behind
    what was queued, one per record, in the order of the records, each with
    the name and the cookie of its record; [getEvent] returns the queue in
    this order and then suspends: nothing reordered, coalesced or dropped. *)
Theorem events_in_order
    (w : Watcher) (rs : list (RawRecord * nat)) (evs : list Event)
    (chunks : list (list byte)) :
  state w = Ready -> buffer w = [] ->
  Forall (wf_record wf_header) rs ->
  events_expected (registry w) (map fst rs) = Some evs ->
  concat chunks = encode_all encode_header rs ->
  let w' := feed_chunks chunks w in
  queue w' = queue w ++ evs
  /\ length evs = length rs
  /\ Forall2 (fun r e => name e = r_name r /\ cookie e = r_cookie r)
       (map fst rs) evs
  /\ fst (get_events (length (queue w ++ evs) + 1) w')
     = map Got (queue w ++ evs) ++ [Suspend].
Proof.
  intros Hs Hb Hwf Hev Hc. cbv zeta.
  rewrite (deliver w rs evs chunks Hs Hb Hwf Hev Hc). split_and!.
  - reflexivity.
  - rewrite (events_expected_length _ _ _ Hev). by rewrite length_map.
  - by eapply events_expected_fields.
  - by rewrite get_events_queue.
Qed.

Variables MOVED_FROM MOVED_TO : Z.

(** Modelled from the spec: what the kernel reports of a rename to a watch
    whose mask has moved-from and moved-to: the two halves, the source name
    first, under one cookie (section 8 and glossary). *)
Definition rename_records (wd c : Z) (src dst : string) : list RawRecord :=
  [mkRecord wd MOVED_FROM c src; mkRecord wd MOVED_TO c dst].

(** C7. A started watcher with nothing buffered or queued, an active watch
    [aw] with id [wd] whose mask includes moved-from and moved-to (moved-from
    not being the self-removal flag), and the report of a rename for this
    watch, cut into chunks in any way.  Then [getEvent] returns exactly two
    events and then suspends: the first with the moved-from flag and the
    source name, the second with the moved-to flag and the destination name,
    both with the cookie of the rename. *)
Theorem rename_gives_two_events
    (w : Watcher) (a : string) (aw : ActiveWatch) (wd c : Z)
    (src dst : string) (p1 p2 : nat) (chunks : list (list byte)) :
  state w = Ready -> buffer w = [] -> queue w = [] ->
  resolve wd (registry w) = Some a ->
  by_alias (registry w) !! a = Some aw ->
  Z.land MOVED_FROM (aw_mask aw) = MOVED_FROM -> MOVED_FROM <> 0 ->
  Z.land MOVED_TO (aw_mask aw) = MOVED_TO -> MOVED_TO <> 0 ->
  Z.land MOVED_FROM IGNORED = 0 ->
  Forall (wf_record wf_header)
    (zip (rename_records wd c src dst) [p1; p2]) ->
  concat chunks
  = encode_all encode_header (zip (rename_records wd c src dst) [p1; p2]) ->
  let ev1 := mkEvent src MOVED_FROM c (aw_alias aw) in
  let ev2 := mkEvent dst MOVED_TO c (aw_alias aw) in
  fst (get_events 3 (feed_chunks chunks w)) = [Got ev1; Got ev2; Suspend]
  /\ cookie ev1 = cookie ev2.
Proof.
  intros Hs Hb Hq Hr Ha Hf Hf0 Ht Ht0 Hfi Hwf Hc. cbv zeta.
  split; [|reflexivity].
  rewrite (deliver w _ [mkEvent src MOVED_FROM c (aw_alias aw);
                        mkEvent dst MOVED_TO c (aw_alias aw)]
             chunks Hs Hb Hwf); [| |exact Hc].
  - rewrite Hq. reflexivity.
  - unfold rename_records. cbn [zip_with map fst events_expected].
    assert (E1 : event_of (registry w) (mkRecord wd MOVED_FROM c src)
                 = Some (mkEvent src MOVED_FROM c (aw_alias aw))).
    { unfold event_of. cbn [r_wd r_mask r_name r_cookie]. rewrite Hr, Ha, Hf.
      by destruct (Z.eqb_spec MOVED_FROM 0). }
    assert (E2 : event_of (registry w) (mkRecord wd MOVED_TO c dst)
                 = Some (mkEvent dst MOVED_TO c (aw_alias aw))).
    { unfold event_of. cbn [r_wd r_mask r_name r_cookie]. rewrite Hr, Ha, Ht.
      by destruct (Z.eqb_spec MOVED_TO 0). }
    assert (S1 : registry_after (registry w) (mkRecord wd MOVED_FROM c src)
                 = registry w).
    { unfold registry_after, self_removal. cbn [r_mask]. by rewrite Hfi. }
    by rewrite E1, S1, E2.
Qed.

End Delivery.

(** C5. Registering under an alias that an active watch holds fails with a
    Duplicate-kind error and gives the registry back as it was; and so does
    [watch] called with this alias on a started watcher: the error is
    Duplicate, and the watcher (its registry included) and the kernel are
    exactly as before the call. *)
Theorem duplicate_alias_rejected
    (reg : Registry) (a : string) (aw : ActiveWatch)
    (wd : Z) (path : string) (mask : Z) :
  by_alias reg !! a = Some aw ->
  register a wd path mask reg = (Err Duplicate, reg)
  /\ forall (k : K) (w : Watcher),
       state w = Ready -> registry w = reg ->
       watch path mask (Some a) (k, w) = (Err Duplicate, (k, w)).
Proof.
  intros Ha. split.
  - unfold register. by rewrite Ha.
  - intros k w Hs <-. unfold watch, setup_watch. rewrite Hs. cbn.
    by rewrite Ha.
Qed.

(** C8. For a path the kernel accepts: [watch] before [setup] (the request
    waits as pending and [setup] realizes it) and [watch] after [setup]
    (realized at once) both succeed and leave the same kernel state and the
    same watcher: one active watch, under the same alias and watch id.  So
    whatever the descriptor delivers afterwards gives the same events, and a
    record of this watch with a flag of its mask gives, in both cases, the
    event with the record's name, its flags within the mask and the alias. *)
Theorem watch_before_or_after_setup
    (k k1 k2 : K) (fd wd : Z) (path : string) (mask : Z) (a : option string) :
  k_open k = Some (fd, k1) ->
  k_add_watch fd path mask k1 = Some (wd, k2) ->
  let before := setup (snd (watch path mask a (k, new_watcher))) in
  let after := watch path mask a (snd (setup (k, new_watcher))) in
  fst before = Ok tt /\ fst after = Ok tt
  /\ snd before = snd after
  /\ (forall chunks,
        feed_chunks chunks (snd (snd before))
        = feed_chunks chunks (snd (snd after)))
  /\ forall r, r_wd r = wd -> Z.land (r_mask r) mask <> 0 ->
       event_of (registry (snd (snd before))) r
       = Some (mkEvent (r_name r) (Z.land (r_mask r) mask) (r_cookie r)
                 (default path a))
       /\ event_of (registry (snd (snd after))) r
          = Some (mkEvent (r_name r) (Z.land (r_mask r) mask) (r_cookie r)
                    (default path a)).
Proof.
  intros Ho Ha. cbv zeta.
  assert (Hb : setup (snd (watch path mask a (k, new_watcher)))
               = (Ok tt, (k2, mkWatcher Ready []
                    (mkRegistry {[default path a
                                    := mkWatch wd (default path a) path mask]}
                                {[wd := default path a]})
                    (Some fd) [] []))).
  { cbn. rewrite Ho. cbn. rewrite lookup_empty. by rewrite Ha. }
  assert (Haf : watch path mask a (snd (setup (k, new_watcher)))
               = (Ok tt, (k2, mkWatcher Ready []
                    (mkRegistry {[default path a
                                    := mkWatch wd (default path a) path mask]}
                                {[wd := default path a]})
                    (Some fd) [] []))).
  { cbn. rewrite Ho. cbn. rewrite lookup_empty. by rewrite Ha. }
  rewrite Hb, Haf. split_and!; try reflexivity.
  intros r Hr Hm. unfold event_of, resolve.
  cbn [snd registry by_id by_alias]. rewrite Hr, !lookup_singleton_eq.
  cbn [aw_mask aw_alias].
  by destruct (Z.eqb_spec (Z.land (r_mask r) mask) 0).
Qed.

End Model.

(** ** An instance: the Linux layout and a small kernel *)

Module Inotify.

(** The flags of the inotify interface that the claims name. *)
Definition IN_MOVED_FROM : Z := 0x40.
Definition IN_MOVED_TO : Z := 0x80.
Definition IN_CREATE : Z := 0x100.
Definition IN_IGNORED : Z := 0x8000.

Definition byte_of_Z (z : Z) : byte :=
  default x00 (Byte.of_N (Z.to_N (z mod 256))).

Definition Z_of_byte (b : byte) : Z := Z.of_N (Byte.to_N b).

(** A 32-bit field, least significant byte first. *)
Definition le32 (z : Z) : list byte :=
  [byte_of_Z z; byte_of_Z (z / 256); byte_of_Z (z / 65536);
   byte_of_Z (z / 16777216)].

Definition un32 (bs : list byte) : Z :=
  match bs with
  | [b0; b1; b2; b3] =>
      Z_of_byte b0 + 256 * Z_of_byte b1 + 65536 * Z_of_byte b2
      + 16777216 * Z_of_byte b3
  | _ => 0
  end.

(** [struct inotify_event]: wd, mask, cookie, len. *)
Definition header_size : nat := 16.

Definition encode_header (h : Header) : list byte :=
  le32 (h_wd h) ++ le32 (h_mask h) ++ le32 (h_cookie h)
  ++ le32 (Z.of_nat (h_len h)).

Definition decode_header (bs : list byte) : Header :=
  mkHeader (un32 (take 4 bs)) (un32 (take 4 (drop 4 bs)))
    (un32 (take 4 (drop 8 bs))) (Z.to_nat (un32 (take 4 (drop 12 bs)))).

Definition u32 (z : Z) : Prop := 0 <= z < 4294967296.

Definition wf_header (h : Header) : Prop :=
  u32 (h_wd h) /\ u32 (h_mask h) /\ u32 (h_cookie h)
  /\ u32 (Z.of_nat (h_len h)).

Lemma Z_of_byte_of_Z z : Z_of_byte (byte_of_Z z) = z mod 256.
Proof.
  unfold Z_of_byte, byte_of_Z.
  assert (H : 0 <= z mod 256 < 256) by (apply Z.mod_pos_bound; lia).
  destruct (Byte.of_N (Z.to_N (z mod 256))) as [b|] eqn:E; cbn.
  - apply Byte.to_of_N in E. rewrite E. lia.
  - apply Byte.of_N_None_iff in E. lia.
Qed.

Lemma un32_le32 z : u32 z -> un32 (le32 z) = z.
Proof.
  unfold u32, un32, le32. intros H. rewrite !Z_of_byte_of_Z.
  Z.div_mod_to_equations. lia.
Qed.

Lemma le_encode_header_length h : length (encode_header h) = header_size.
Proof. reflexivity. Qed.

Lemma le_decode_encode_header h :
  wf_header h -> decode_header (encode_header h) = h.
Proof.
  intros (H1 & H2 & H3 & H4). destruct h as [wd m c n]. cbn in *.
  unfold decode_header, encode_header.
  cbn [h_wd h_mask h_cookie h_len le32 app take drop].
  fold (le32 wd) (le32 m) (le32 c) (le32 (Z.of_nat n)).
  rewrite !un32_le32 by done. by rewrite Nat2Z.id.
Qed.

Lemma le_header_size_pos : (0 < header_size)%nat.
Proof. unfold header_size. lia. Qed.

(** A kernel: the next watch id and the paths that exist.  The channel is
    descriptor 3. *)
Definition K : Type := Z * list string.

Definition k_open (k : K) : option (Z * K) := Some (3, k).

Definition k_add_watch (fd : Z) (path : string) (mask : Z) (k : K)
  : option (Z * K) :=
  if bool_decide (path ∈ k.2) then Some (k.1, (k.1 + 1, k.2)) else None.

(** A started watcher with one watch: id 1, alias "d". *)
Definition registry1 (mask : Z) : Registry :=
  (register "d" 1 "/tmp/d" mask empty_registry).2.

Definition watcher1 (mask : Z) : Watcher :=
  mkWatcher Ready [] (registry1 mask) (Some 3) [] [].

End Inotify.

Lemma duplicate_alias_rejected_witness :
  register "d" 7 "/tmp/e" Inotify.IN_CREATE
    (Inotify.registry1 Inotify.IN_CREATE)
  = (Err Duplicate, Inotify.registry1 Inotify.IN_CREATE).
Proof.
  refine (proj1 (duplicate_alias_rejected Inotify.K Inotify.k_add_watch
                   (Inotify.registry1 Inotify.IN_CREATE) "d"
                   (mkWatch 1 "d" "/tmp/d" Inotify.IN_CREATE)
                   7 "/tmp/e" Inotify.IN_CREATE _)).
  vm_compute. reflexivity.
Defined.

Definition two_creates : list (RawRecord * nat) :=
  [(mkRecord 1 Inotify.IN_CREATE 0 "a", 15%nat);
   (mkRecord 1 Inotify.IN_CREATE 0 "b", 15%nat)].

Lemma events_in_order_witness :
  let bytes := encode_all Inotify.encode_header two_creates in
  let w' := feed_chunks Inotify.header_size Inotify.decode_header
              Inotify.IN_IGNORED [take 21 bytes; drop 21 bytes]
              (Inotify.watcher1 Inotify.IN_CREATE) in
  queue w' = [mkEvent "a" Inotify.IN_CREATE 0 "d";
              mkEvent "b" Inotify.IN_CREATE 0 "d"].
Proof.
  cbv zeta.
  refine (proj1 (events_in_order Inotify.header_size Inotify.decode_header
    Inotify.IN_IGNORED Inotify.encode_header Inotify.wf_header
    Inotify.le_header_size_pos Inotify.le_encode_header_length
    Inotify.le_decode_encode_header
    (Inotify.watcher1 Inotify.IN_CREATE) two_creates
    [mkEvent "a" Inotify.IN_CREATE 0 "d"; mkEvent "b" Inotify.IN_CREATE 0 "d"]
    _ eq_refl eq_refl _ _ _)).
  - repeat constructor; try discriminate; cbn; lia.
  - vm_compute. reflexivity.
  - vm_compute. reflexivity.
Defined.

Lemma rename_gives_two_events_witness :
  let rs := zip (rename_records Inotify.IN_MOVED_FROM Inotify.IN_MOVED_TO
                   1 77 "a" "b") [15%nat; 15%nat] in
  let bytes := encode_all Inotify.encode_header rs in
  let mask := Z.lor Inotify.IN_MOVED_FROM Inotify.IN_MOVED_TO in
  fst (get_events 3
         (feed_chunks Inotify.header_size Inotify.decode_header
            Inotify.IN_IGNORED [take 40 bytes; drop 40 bytes]
            (Inotify.watcher1 mask)))
  = [Got (mkEvent "a" Inotify.IN_MOVED_FROM 77 "d");
     Got (mkEvent "b" Inotify.IN_MOVED_TO 77 "d"); Suspend].
Proof.
  cbv zeta.
  refine (proj1 (rename_gives_two_events Inotify.header_size
    Inotify.decode_header Inotify.IN_IGNORED Inotify.encode_header
    Inotify.wf_header Inotify.le_header_size_pos Inotify.le_encode_header_length
    Inotify.le_decode_encode_header Inotify.IN_MOVED_FROM Inotify.IN_MOVED_TO
    (Inotify.watcher1 (Z.lor Inotify.IN_MOVED_FROM Inotify.IN_MOVED_TO))
    "d" (mkWatch 1 "d" "/tmp/d"
           (Z.lor Inotify.IN_MOVED_FROM Inotify.IN_MOVED_TO))
    1 77 "a" "b" 15 15 _
    eq_refl eq_refl eq_refl _ _ eq_refl _ eq_refl _ eq_refl _ _)).
  - vm_compute. reflexivity.
  - vm_compute. reflexivity.
  - discriminate.
  - discriminate.
  - repeat constructor; try discriminate; cbn; lia.
  - vm_compute. reflexivity.
Defined.

Lemma watch_before_or_after_setup_witness :
  let k : Inotify.K := (1, ["/tmp/d"%string]) in
  let before :=
    setup Inotify.K Inotify.k_open Inotify.k_add_watch
      (watch Inotify.K Inotify.k_add_watch "/tmp/d" Inotify.IN_CREATE None
         (k, new_watcher)).2 in
  let after :=
    watch Inotify.K Inotify.k_add_watch "/tmp/d" Inotify.IN_CREATE None
      (setup Inotify.K Inotify.k_open Inotify.k_add_watch (k, new_watcher)).2
  in
  before.2 = after.2.
Proof.
  cbv zeta.
  refine (proj1 (proj2 (proj2 (watch_before_or_after_setup
    Inotify.header_size Inotify.decode_header Inotify.IN_IGNORED
    Inotify.K Inotify.k_open Inotify.k_add_watch
    (1, ["/tmp/d"%string]) (1, ["/tmp/d"%string]) (2, ["/tmp/d"%string])
    3 1 "/tmp/d" Inotify.IN_CREATE None eq_refl _)))).
  vm_compute. reflexivity.
Defined.

End Watcher.
